(** * CollapsibleGrid: column visibility, row resynchronisation and sizing templates

    A shallow embedding of [src/CollapsibleGrid.tsx].  The repository holds
    two revisions of the component:

    - the revision with the swap rule in [toggle] and the "halves" layout
      (module [Strict] below);
    - the revision with the plain floor rule in [toggle] and the "1fr" layout
      (module [Permissive] below).

    [MIN_EXPANDED], [getCollapsedWidthCh], [initialExpanded], the initial
    open-row set and the row resynchronisation effect are textually the same
    in both revisions and are modelled once.

    A JavaScript [Set<string>] is used by the component only through [has],
    [add], [delete], [size] and copying, so it is modelled as a [gset string].
    React state is made explicit: every [setState (prev => ...)] updater is a
    function from the previous state to the next one. *)

From stdpp Require Import gmap strings list fin_sets pretty.

Open Scope string_scope.
Open Scope nat_scope.

(* [set_solver] clears hypotheses by name and warns when one is already gone. *)
Set Warnings "-clear-no-such-hyp".

(** ** Data model *)

(** [HeaderCell]: only [id] and [title] take part in the state and layout
    logic; the optional [addonRight], [addonBelow] and [renderHeader] fields
    of the first revision are rendering callbacks and are left out. *)
Module HeaderCell.
Record t : Type := mk { id : string; title : string }.
End HeaderCell.

#[global] Instance HeaderCell_eq_dec : EqDecision HeaderCell.t.
Proof. solve_decision. Defined.

(** [Row]: [blocks] is a [Record<string, ReactNode>]; the node type is kept
    abstract. *)
Module Row.
Record t (Node : Type) : Type := mk { id : string; blocks : gmap string Node }.
Arguments mk {Node} _ _.
Arguments id {Node} _.
Arguments blocks {Node} _.
End Row.

Definition MIN_EXPANDED : nat := 2.

(** [Math.max(title.length + 4, 8)]; a title is a sequence of code units and
    [title.length] counts them. *)
Definition getCollapsedWidthCh (title : string) : nat :=
  Nat.max (String.length title + 4) 8.

(** [arr.slice(0, -1)]: every element but the last one. *)
Definition slice_0_m1 {A : Type} (arr : list A) : list A :=
  take (length arr - 1) arr.

Definition initialExpanded (headers : list HeaderCell.t) : list string :=
  if length headers <=? MIN_EXPANDED
  then map HeaderCell.id headers
  else map HeaderCell.id (slice_0_m1 headers).   (* collapse last by default *)

(** [useState(new Set(initialExpanded))] *)
Definition initialExpandedSet (headers : list HeaderCell.t) : gset string :=
  list_to_set (initialExpanded headers).

(** [useState(() => new Set(rows.map((r) => r.id)))] *)
Definition initialOpenRows {Node : Type} (rows : list (Row.t Node)) : gset string :=
  list_to_set (map Row.id rows).

(** The updater of the [useEffect] that runs whenever [rows] changes: two
    [forEach] passes over the incoming rows, both adding to [next]. *)
Definition resyncRows {Node : Type} (rows : list (Row.t Node)) (prev : gset string)
  : gset string :=
  let next : gset string := ∅ in
  let next :=
    foldl (λ next row, if bool_decide (Row.id row ∈ prev)
                       then next ∪ {[Row.id row]} else next) next rows in
  (* add any new rows as expanded by default *)
  let next := foldl (λ next row, next ∪ {[Row.id row]}) next rows in
  next.

(** [onChange] of the row panel: the open-row set is replaced wholesale. *)
Definition setOpenRows (keys : list string) (_prev : gset string) : gset string :=
  list_to_set keys.

(** A sequence of header clicks, each applying the [toggle] updater. *)
Definition toggleSeq (toggle : string → gset string → gset string)
    (ids : list string) (expanded : gset string) : gset string :=
  foldl (λ prev id, toggle id prev) expanded ids.

Definition headerIds (headers : list HeaderCell.t) : list string :=
  map HeaderCell.id headers.

Definition headerIdSet (headers : list HeaderCell.t) : gset string :=
  list_to_set (headerIds headers).

(** The resynchronisation rule as the specification words it, for comparison
    with [resyncRows]: the ids of the new list that were open before, united
    with the ids of the new list that the previous list did not have. *)
Definition resyncRows_as_specified {Node : Type}
    (prevRows rows : list (Row.t Node)) (prev : gset string) : gset string :=
  list_to_set (filter (λ i, i ∈ prev) (map Row.id rows))
  ∪ list_to_set (filter (λ i, i ∉ map Row.id prevRows) (map Row.id rows)).

(** ** Second revision: floor rule, "1fr" layout *)
Module Permissive.

Definition toggle (id : string) (prev : gset string) : gset string :=
  let next := prev in
  let isExpanded := bool_decide (id ∈ prev) in
  if isExpanded && (size prev <=? MIN_EXPANDED) then
    prev                                   (* keep at least two expanded *)
  else if isExpanded then next ∖ {[id]}
  else next ∪ {[id]}.

Definition headerTemplateArr (headers : list HeaderCell.t) (expanded : gset string)
  : list string :=
  map (λ header,
         if bool_decide (HeaderCell.id header ∈ expanded) then "1fr"
         else pretty (getCollapsedWidthCh (HeaderCell.title header)) +:+ "ch")
      headers.

(** collapsed columns get 0 width so visible columns divide space equally *)
Definition valueTemplateArr (headers : list HeaderCell.t) (expanded : gset string)
  : list string :=
  map (λ header,
         if bool_decide (HeaderCell.id header ∈ expanded) then "1fr" else "0px")
      headers.

Definition headerTemplate (headers : list HeaderCell.t) (expanded : gset string)
  : string :=
  String.concat " " (headerTemplateArr headers expanded).

Definition valueTemplate (headers : list HeaderCell.t) (expanded : gset string)
  : string :=
  String.concat " " (valueTemplateArr headers expanded).

End Permissive.

(** ** First revision: swap rule, "halves" layout *)
Module Strict.

Definition expandedIds (headers : list HeaderCell.t) (prev : gset string)
  : list string :=
  map HeaderCell.id (filter (λ h, HeaderCell.id h ∈ prev) headers).

Definition collapsedIds (headers : list HeaderCell.t) (prev : gset string)
  : list string :=
  map HeaderCell.id (filter (λ h, HeaderCell.id h ∉ prev) headers).

(** [collapsedIds.length === 1] followed by [collapsedIds[0]] is the match
    on a one-element list. *)
Definition toggle (headers : list HeaderCell.t) (id : string) (prev : gset string)
  : gset string :=
  let next := prev in
  let isExpanded := bool_decide (id ∈ prev) in
  if isExpanded then
    if size prev =? MIN_EXPANDED then
      match collapsedIds headers prev with
      | [collapsedId] =>
          (* Swap: previously collapsed becomes expanded, clicked becomes collapsed *)
          (next ∪ {[collapsedId]}) ∖ {[id]}
      | _ => prev           (* already at minimum and nothing to swap *)
      end
    else next ∖ {[id]}      (* collapse one when all are expanded *)
  else
    if length (collapsedIds headers prev) =? 1 then next ∪ {[id]}
    else next ∪ {[id]}.

(** The two stateful [headers.map] passes; [firstExpandedAssigned] is the
    mutable flag captured by the callback. *)
Fixpoint headerTemplateArr (collapsedId collapsedWidth : string)
    (firstExpandedAssigned : bool) (headers : list HeaderCell.t) : list string :=
  match headers with
  | [] => []
  | header :: rest =>
      if bool_decide (HeaderCell.id header = collapsedId) then
        collapsedWidth
          :: headerTemplateArr collapsedId collapsedWidth firstExpandedAssigned rest
      else if negb firstExpandedAssigned then
        "50%" :: headerTemplateArr collapsedId collapsedWidth true rest
      else
        ("calc(50% - " +:+ collapsedWidth +:+ ")")
          :: headerTemplateArr collapsedId collapsedWidth firstExpandedAssigned rest
  end.

Fixpoint valueTemplateArr (collapsedId : string)
    (firstExpandedAssigned : bool) (headers : list HeaderCell.t) : list string :=
  match headers with
  | [] => []
  | header :: rest =>
      if bool_decide (HeaderCell.id header = collapsedId) then
        "0px" :: valueTemplateArr collapsedId firstExpandedAssigned rest
      else if negb firstExpandedAssigned then
        "50%" :: valueTemplateArr collapsedId true rest
      else
        "50%" :: valueTemplateArr collapsedId firstExpandedAssigned rest
  end.

(** [collapsedList[0]?.id] *)
Definition firstCollapsedId (headers : list HeaderCell.t) (expanded : gset string)
  : option string :=
  HeaderCell.id <$> (filter (λ h, HeaderCell.id h ∉ expanded) headers) !! 0.

(** JavaScript truthiness of a [string | undefined]. *)
Definition truthy (s : option string) : bool :=
  match s with
  | None => false
  | Some s => negb (bool_decide (s = ""))
  end.

(** [headers.find((h) => h.id === collapsedId)] *)
Definition findHeader (headers : list HeaderCell.t) (collapsedId : string)
  : option HeaderCell.t :=
  snd <$> list_find (λ h, HeaderCell.id h = collapsedId) headers.

(** The token arrays before [join(' ')], header template first.  [None]
    stands for the [TypeError] a failed [find(...)!] would raise on
    [.title]. *)
Definition templateArrs (headers : list HeaderCell.t) (expanded : gset string)
  : option (list string * list string) :=
  let collapsedId := firstCollapsedId headers expanded in
  if negb (truthy collapsedId) then
    let tmpl := map (λ _, "1fr") headers in
    Some (tmpl, tmpl)
  else
    match collapsedId with
    | None => None
    | Some collapsedId =>
        match findHeader headers collapsedId with
        | None => None
        | Some collapsedHeader =>
            let collapsedWidth :=
              pretty (getCollapsedWidthCh (HeaderCell.title collapsedHeader)) +:+ "ch" in
            Some (headerTemplateArr collapsedId collapsedWidth false headers,
                  valueTemplateArr collapsedId false headers)
        end
    end.

Definition templates (headers : list HeaderCell.t) (expanded : gset string)
  : option (string * string) :=
  prod_map (String.concat " ") (String.concat " ") <$> templateArrs headers expanded.

(** States the header strip can bring the component to: every button's
    [onClick] is [() => toggle(header.id)] for a [header] of [headers]. *)
Inductive reachable (headers : list HeaderCell.t) : gset string → Prop :=
| reachable_init : reachable headers (initialExpandedSet headers)
| reachable_click header expanded :
    reachable headers expanded →
    header ∈ headers →
    reachable headers (toggle headers (HeaderCell.id header) expanded).

End Strict.

(** ** Rendering: header buttons, row panels

    The parts of the JSX that depend on the state: what every header button
    and every cell of a row panel is given.  Colours, gaps and the other
    constant style entries are left out. *)

(** A CSS [minWidth] value: a number (pixels) or a length string. *)
Inductive MinWidth : Type :=
| MinWidthPx (n : nat)
| MinWidthStr (s : string).

(** One [<button>] of the header strip: its [key], the id its [onClick]
    passes to [toggle], its [minWidth] and the rotation of its caret.  The
    same in both revisions. *)
Module HeaderButton.
Record t : Type :=
  mk { key : string; onClick : string; minWidth : MinWidth; rotate : nat }.
End HeaderButton.

Definition headerCells (headers : list HeaderCell.t) (expanded : gset string)
  : list HeaderButton.t :=
  map (λ header,
         let isExpanded := bool_decide (HeaderCell.id header ∈ expanded) in
         let collapsedWidthCh := getCollapsedWidthCh (HeaderCell.title header) in
         HeaderButton.mk (HeaderCell.id header) (HeaderCell.id header)
           (if isExpanded then MinWidthPx 140
            else MinWidthStr (pretty collapsedWidthCh +:+ "ch"))
           (if isExpanded then 90 else 0))
      headers.

(** One child of a row panel's grid: a [display: 'none'] placeholder for a
    collapsed column, or a block with the header title and
    [row.blocks[header.id]].  [blocks] is read as the map of the record's own
    keys, so a missing key gives [None] ([undefined] renders nothing).
    [borderLeft] and [paddingLeft] are set by the first revision only. *)
Module Cell.
Inductive t (Node : Type) : Type :=
| hidden (key : string) (gridColumn : nat)
| block (key : string) (gridColumn : nat)
    (borderLeft : option string) (paddingLeft : option nat)
    (title : string) (content : option Node).
Arguments hidden {Node} _ _.
Arguments block {Node} _ _ _ _ _ _.

Definition gridColumn {Node : Type} (c : t Node) : nat :=
  match c with hidden _ g => g | block _ g _ _ _ _ => g end.

Definition key {Node : Type} (c : t Node) : string :=
  match c with hidden k _ => k | block k _ _ _ _ _ => k end.

Definition isHidden {Node : Type} (c : t Node) : bool :=
  match c with hidden _ _ => true | block _ _ _ _ _ _ => false end.
End Cell.

(** Second revision: [headers.map((header, idx) => ...)] inside a panel. *)
Definition rowCellsPermissive {Node : Type} (headers : list HeaderCell.t)
    (expanded : gset string) (row : Row.t Node) : list (Cell.t Node) :=
  imap (λ idx header,
          let isExpanded := bool_decide (HeaderCell.id header ∈ expanded) in
          if negb isExpanded then Cell.hidden (HeaderCell.id header) (idx + 1)
          else Cell.block (HeaderCell.id header) (idx + 1) None None
                 (HeaderCell.title header)
                 (Row.blocks row !! HeaderCell.id header))
       headers.

(** First revision: the same map with the counter [visibleOrder], which the
    callback reads and increments for every expanded column. *)
Fixpoint rowCellsStrictFrom {Node : Type} (expanded : gset string) (row : Row.t Node)
    (idx visibleOrder : nat) (headers : list HeaderCell.t) : list (Cell.t Node) :=
  match headers with
  | [] => []
  | header :: rest =>
      let isExpanded := bool_decide (HeaderCell.id header ∈ expanded) in
      if negb isExpanded then
        Cell.hidden (HeaderCell.id header) (idx + 1)
          :: rowCellsStrictFrom expanded row (S idx) visibleOrder rest
      else
        let order := visibleOrder in
        Cell.block (HeaderCell.id header) (idx + 1)
          (Some (if 0 <? order then "1px solid #e5e5e5" else "none"))
          (Some (if 0 <? order then 12 else 0))
          (HeaderCell.title header)
          (Row.blocks row !! HeaderCell.id header)
          :: rowCellsStrictFrom expanded row (S idx) (S visibleOrder) rest
  end.

Definition rowCellsStrict {Node : Type} (headers : list HeaderCell.t)
    (expanded : gset string) (row : Row.t Node) : list (Cell.t Node) :=
  rowCellsStrictFrom expanded row 0 0 headers.

(** [onChange] of the [Collapse]: [keys] is one key or an array of keys,
    [Array.isArray(keys) ? keys : [keys]]. *)
Definition onChange (keys : string + list string) (prev : gset string)
  : gset string :=
  let list := match keys with inl key => [key] | inr keys => keys end in
  setOpenRows list prev.

(** ** Concrete data used in the examples *)

Definition hA : HeaderCell.t := HeaderCell.mk "A" "A".
Definition hB : HeaderCell.t := HeaderCell.mk "B" "B".
Definition hC : HeaderCell.t := HeaderCell.mk "C" "C".
Definition hD : HeaderCell.t := HeaderCell.mk "D" "D".

Definition row (id : string) : Row.t string := Row.mk id ∅.


(** * Properties *)

(** Closed decidable goals over concrete headers, rows and sets are settled
    by evaluating their decision procedure. *)
Ltac by_eval :=
  match goal with
  | |- ?P => apply (bool_decide_unpack P); vm_compute; exact I
  end.

(** ** Collapsed width *)

Lemma getCollapsedWidthCh_short title :
  String.length title ≤ 4 → getCollapsedWidthCh title = 8.
Proof. unfold getCollapsedWidthCh. lia. Qed.

Lemma getCollapsedWidthCh_long title :
  4 ≤ String.length title → getCollapsedWidthCh title = String.length title + 4.
Proof. unfold getCollapsedWidthCh. lia. Qed.

(** C7: the collapsed width of a header is [max(len(title) + 4, 8)]: it is
    the larger of the two numbers (at least both, and equal to one of them);
    every 1-character title gives 8 and the title ["Status"] gives 10. *)
Theorem C7_collapsed_width (title : string) :
  getCollapsedWidthCh title = Nat.max (String.length title + 4) 8
  ∧ String.length title + 4 ≤ getCollapsedWidthCh title
  ∧ 8 ≤ getCollapsedWidthCh title
  ∧ (getCollapsedWidthCh title = String.length title + 4
     ∨ getCollapsedWidthCh title = 8)
  ∧ (String.length title = 1 → getCollapsedWidthCh title = 8)
  ∧ getCollapsedWidthCh "S" = 8
  ∧ getCollapsedWidthCh "Status" = 10.
Proof.
  repeat split; try reflexivity; unfold getCollapsedWidthCh; try lia.
Qed.

Lemma C7_collapsed_width_witness :
  String.length "S" = 1 ∧ getCollapsedWidthCh "S" = 8.
Proof.
  split; [reflexivity|].
  apply (proj1 (proj2 (proj2 (proj2 (proj2 (C7_collapsed_width "S")))))).
  reflexivity.
Defined.

(** ** The permissive [toggle] *)

Lemma permissive_toggle_expanded_above_floor id (prev : gset string) :
  id ∈ prev → MIN_EXPANDED < size prev → Permissive.toggle id prev = prev ∖ {[id]}.
Proof.
  intros Hin Hsz. unfold Permissive.toggle.
  rewrite (bool_decide_eq_true_2 _ Hin). cbn.
  destruct (Nat.leb_spec (size prev) MIN_EXPANDED); [lia | done].
Qed.

Lemma permissive_toggle_expanded_at_floor id (prev : gset string) :
  id ∈ prev → size prev ≤ MIN_EXPANDED → Permissive.toggle id prev = prev.
Proof.
  intros Hin Hsz. unfold Permissive.toggle.
  rewrite (bool_decide_eq_true_2 _ Hin). cbn.
  destruct (Nat.leb_spec (size prev) MIN_EXPANDED); [done | lia].
Qed.

Lemma permissive_toggle_collapsed id (prev : gset string) :
  id ∉ prev → Permissive.toggle id prev = prev ∪ {[id]}.
Proof.
  intros Hin. unfold Permissive.toggle.
  by rewrite (bool_decide_eq_false_2 _ Hin).
Qed.

Lemma size_remove_elem (s : gset string) x :
  x ∈ s → size (s ∖ {[x]}) = size s - 1.
Proof.
  intros Hin. rewrite size_difference; [|set_solver].
  by rewrite size_singleton.
Qed.

Lemma size_add_fresh (s : gset string) x :
  x ∉ s → size (s ∪ {[x]}) = S (size s).
Proof.
  intros Hin. rewrite size_union; [|set_solver].
  rewrite size_singleton. lia.
Qed.

Lemma size_add_le (s : gset string) x : size s ≤ size (s ∪ {[x]}).
Proof. apply subseteq_size. set_solver. Qed.

(** C3: the permissive [toggle] on an expanded id removes exactly that id
    when more than two columns are expanded, leaves the state unchanged when
    exactly two are expanded, and on an id that is not expanded adds it. *)
Theorem C3_permissive_toggle (id : string) (prev : gset string) :
  (id ∈ prev → 2 < size prev →
     Permissive.toggle id prev = prev ∖ {[id]}
     ∧ size (Permissive.toggle id prev) = size prev - 1)
  ∧ (id ∈ prev → size prev = 2 → Permissive.toggle id prev = prev)
  ∧ (id ∉ prev →
     Permissive.toggle id prev = prev ∪ {[id]}
     ∧ id ∈ Permissive.toggle id prev
     ∧ size (Permissive.toggle id prev) = S (size prev)).
Proof.
  split; [|split].
  - intros Hin Hsz.
    rewrite permissive_toggle_expanded_above_floor by done.
    split; [done | by apply size_remove_elem].
  - intros Hin Hsz. apply permissive_toggle_expanded_at_floor; [done|].
    unfold MIN_EXPANDED. lia.
  - intros Hin. rewrite permissive_toggle_collapsed by done.
    split; [done|]. split; [set_solver | by apply size_add_fresh].
Qed.

Lemma C3_permissive_toggle_witness :
  Permissive.toggle "C" {["A"; "B"; "C"]} = ({["A"; "B"; "C"]} : gset string) ∖ {["C"]}
  ∧ Permissive.toggle "A" {["A"; "B"]} = {["A"; "B"]}
  ∧ Permissive.toggle "C" {["A"; "B"]} = {["A"; "B"]} ∪ {["C"]}.
Proof.
  split; [|split].
  - apply (proj1 (C3_permissive_toggle "C" {["A"; "B"; "C"]})); by_eval.
  - apply (proj1 (proj2 (C3_permissive_toggle "A" {["A"; "B"]}))); by_eval.
  - apply (proj2 (proj2 (C3_permissive_toggle "C" {["A"; "B"]}))); by_eval.
Defined.

(** ** The strict [toggle] *)

Lemma strict_toggle_collapsed headers id (prev : gset string) :
  id ∉ prev → Strict.toggle headers id prev = prev ∪ {[id]}.
Proof.
  intros Hin. unfold Strict.toggle.
  rewrite (bool_decide_eq_false_2 _ Hin). by case_match.
Qed.

Lemma strict_toggle_swap headers id (prev : gset string) collapsedId :
  id ∈ prev → size prev = MIN_EXPANDED →
  Strict.collapsedIds headers prev = [collapsedId] →
  Strict.toggle headers id prev = (prev ∪ {[collapsedId]}) ∖ {[id]}.
Proof.
  intros Hin Hsz Hc. unfold Strict.toggle.
  rewrite (bool_decide_eq_true_2 _ Hin), Hsz, Hc. done.
Qed.

Lemma strict_toggle_nothing_to_swap headers id (prev : gset string) :
  id ∈ prev → size prev = MIN_EXPANDED →
  length (Strict.collapsedIds headers prev) ≠ 1 →
  Strict.toggle headers id prev = prev.
Proof.
  intros Hin Hsz Hc. unfold Strict.toggle.
  rewrite (bool_decide_eq_true_2 _ Hin), Hsz. cbn.
  destruct (Strict.collapsedIds headers prev) as [|c [|c' l]]; done.
Qed.

Lemma strict_toggle_collapse headers id (prev : gset string) :
  id ∈ prev → size prev ≠ MIN_EXPANDED →
  Strict.toggle headers id prev = prev ∖ {[id]}.
Proof.
  intros Hin Hsz. unfold Strict.toggle.
  rewrite (bool_decide_eq_true_2 _ Hin).
  by destruct (Nat.eqb_spec (size prev) MIN_EXPANDED).
Qed.

Lemma elem_of_collapsedIds headers (prev : gset string) x :
  x ∈ Strict.collapsedIds headers prev ↔ x ∈ headerIds headers ∧ x ∉ prev.
Proof.
  unfold Strict.collapsedIds, headerIds. rewrite !list_elem_of_fmap. split.
  - intros (h & -> & Hh). apply list_elem_of_filter in Hh as [Hp Hh]. eauto.
  - intros [(h & -> & Hh) Hx]. exists h. split; [done|].
    by apply list_elem_of_filter.
Qed.

Lemma elem_of_expandedIds headers (prev : gset string) x :
  x ∈ Strict.expandedIds headers prev ↔ x ∈ headerIds headers ∧ x ∈ prev.
Proof.
  unfold Strict.expandedIds, headerIds. rewrite !list_elem_of_fmap. split.
  - intros (h & -> & Hh). apply list_elem_of_filter in Hh as [Hp Hh]. eauto.
  - intros [(h & -> & Hh) Hx]. exists h. split; [done|].
    by apply list_elem_of_filter.
Qed.

Lemma strict_swap_size id (prev : gset string) collapsedId :
  id ∈ prev → collapsedId ∉ prev →
  size ((prev ∪ {[collapsedId]}) ∖ {[id]}) = size prev.
Proof.
  intros Hin Hc. rewrite size_remove_elem by set_solver.
  rewrite size_add_fresh by done. lia.
Qed.

(** C5 as stated fails: clicking the collapsed column [C] of [A, B, C] with
    [{A, B}] expanded expands it; [B] stays expanded and the result is not
    [{A, C}]. *)
Lemma C5_counterexample :
  Strict.toggle [hA; hB; hC] "C" {["A"; "B"]} = {["A"; "B"; "C"]}
  ∧ "B" ∈ Strict.toggle [hA; hB; hC] "C" {["A"; "B"]}
  ∧ Strict.toggle [hA; hB; hC] "C" {["A"; "B"]} ≠ {["A"; "C"]}.
Proof. repeat split; by_eval. Qed.

(** C5, amended: under the strict policy a click on a collapsed column
    always expands it and collapses nothing; the swap happens on a click on
    an expanded column while exactly two ids are expanded and exactly one
    column is collapsed: the collapsed column becomes expanded, the clicked
    one collapsed, and two ids stay expanded.  With headers [A, B, C] and
    [{A, B}] expanded, [toggle C] gives [{A, B, C}] and [toggle B] gives
    [{A, C}]. *)
Theorem C5_strict_swap_on_expanded_click
    (headers : list HeaderCell.t) (id : string) (prev : gset string) :
  (id ∉ prev →
     Strict.toggle headers id prev = prev ∪ {[id]}
     ∧ prev ⊆ Strict.toggle headers id prev)
  ∧ (∀ collapsedId,
       id ∈ prev → size prev = 2 →
       Strict.collapsedIds headers prev = [collapsedId] →
       Strict.toggle headers id prev = (prev ∪ {[collapsedId]}) ∖ {[id]}
       ∧ collapsedId ∈ Strict.toggle headers id prev
       ∧ (id ∉ Strict.toggle headers id prev)
       ∧ size (Strict.toggle headers id prev) = 2)
  ∧ Strict.toggle [hA; hB; hC] "C" {["A"; "B"]} = {["A"; "B"; "C"]}
  ∧ Strict.toggle [hA; hB; hC] "B" {["A"; "B"]} = {["A"; "C"]}.
Proof.
  split; [|split; [|split; by_eval]].
  - intros Hin. rewrite strict_toggle_collapsed by done. set_solver.
  - intros c Hin Hsz Hc.
    assert (c ∉ prev) as Hnc.
    { apply (elem_of_collapsedIds headers prev c). rewrite Hc. set_solver. }
    rewrite (strict_toggle_swap headers id prev c) by done.
    split; [done|]. split; [|split].
    + apply elem_of_difference. split; [set_solver|].
      intros ->%elem_of_singleton. done.
    + intros [_ Hid]%elem_of_difference. by apply Hid, elem_of_singleton.
    + by rewrite strict_swap_size.
Qed.

Lemma C5_strict_swap_on_expanded_click_witness :
  Strict.toggle [hA; hB; hC] "C" {["A"; "B"]} = {["A"; "B"]} ∪ {["C"]}
  ∧ Strict.toggle [hA; hB; hC] "B" {["A"; "B"]}
    = (({["A"; "B"]} : gset string) ∪ {["C"]}) ∖ {["B"]}.
Proof.
  split.
  - apply (proj1 (C5_strict_swap_on_expanded_click [hA; hB; hC] "C" {["A"; "B"]})).
    by_eval.
  - apply (proj1 (proj2 (C5_strict_swap_on_expanded_click
                           [hA; hB; hC] "B" {["A"; "B"]}))).
    + by_eval.
    + by_eval.
    + by_eval.
Defined.

(** ** Unknown ids *)

(** C10: a [toggle] with an id that is neither expanded nor the id of any
    header is not a no-op in either revision: the id is inserted, the state
    changes, and the result is no longer a subset of the header ids. *)
Theorem C10_unknown_id_is_inserted
    (headers : list HeaderCell.t) (id : string) (prev : gset string) :
  id ∉ prev → id ∉ headerIds headers →
  Permissive.toggle id prev = prev ∪ {[id]}
  ∧ Strict.toggle headers id prev = prev ∪ {[id]}
  ∧ Permissive.toggle id prev ≠ prev
  ∧ Strict.toggle headers id prev ≠ prev
  ∧ ¬ (Permissive.toggle id prev ⊆ headerIdSet headers)
  ∧ ¬ (Strict.toggle headers id prev ⊆ headerIdSet headers).
Proof.
  intros Hprev Hhdr.
  rewrite permissive_toggle_collapsed, strict_toggle_collapsed by done.
  assert (id ∈ prev ∪ {[id]}) as Hin by set_solver.
  assert (prev ∪ {[id]} ≠ prev) as Hne by (intros Heq; by rewrite Heq in Hin).
  assert (¬ (prev ∪ {[id]} ⊆ headerIdSet headers)) as Hsub.
  { intros Hsub. apply Hhdr. specialize (Hsub id Hin).
    unfold headerIdSet in Hsub. by apply elem_of_list_to_set in Hsub. }
  done.
Qed.

Lemma C10_unknown_id_is_inserted_witness :
  ({["A"; "B"]} : gset string) ⊆ headerIdSet [hA; hB; hC]
  ∧ Permissive.toggle "X" {["A"; "B"]} = {["A"; "B"]} ∪ {["X"]}
  ∧ ¬ (Permissive.toggle "X" {["A"; "B"]} ⊆ headerIdSet [hA; hB; hC])
  ∧ ¬ (Strict.toggle [hA; hB; hC] "X" {["A"; "B"]} ⊆ headerIdSet [hA; hB; hC]).
Proof.
  assert ("X" ∉ ({["A"; "B"]} : gset string)) as H1 by by_eval.
  assert ("X" ∉ headerIds [hA; hB; hC]) as H2 by by_eval.
  pose proof (C10_unknown_id_is_inserted [hA; hB; hC] "X" {["A"; "B"]} H1 H2)
    as (Hp & _ & _ & _ & Hps & Hss).
  split; [by_eval|]. split; [exact Hp|]. split; [exact Hps | exact Hss].
Defined.

(** ** Row resynchronisation *)

Section Resync.
Context {Node : Type}.
Implicit Types (rows : list (Row.t Node)) (prev next : gset string).

Lemma foldl_add_all rows next :
  foldl (λ next row, next ∪ {[Row.id row]}) next rows
  = next ∪ list_to_set (map Row.id rows).
Proof.
  revert next. induction rows as [|r rows IH]; intros next; cbn.
  - set_solver.
  - rewrite IH. set_solver.
Qed.

Lemma elem_of_foldl_keep_open rows prev next x :
  x ∈ foldl (λ next row, if bool_decide (Row.id row ∈ prev)
                         then next ∪ {[Row.id row]} else next) next rows
  ↔ x ∈ next ∨ (x ∈ map Row.id rows ∧ x ∈ prev).
Proof.
  revert next. induction rows as [|r rows IH]; intros next; cbn.
  - rewrite elem_of_nil. tauto.
  - rewrite IH, elem_of_cons. case_bool_decide; set_solver.
Qed.

(** What the two passes compute together: the second pass adds every
    incoming id, so the result is the id set of the incoming rows,
    whatever [prev] was. *)
Lemma resyncRows_all_open rows prev :
  resyncRows rows prev = list_to_set (map Row.id rows).
Proof.
  unfold resyncRows. rewrite foldl_add_all.
  apply set_eq. intros x.
  rewrite elem_of_union, elem_of_foldl_keep_open, elem_of_list_to_set.
  set_solver.
Qed.

Lemma elem_of_resyncRows_as_specified (prevRows rows : list (Row.t Node)) prev x :
  x ∈ resyncRows_as_specified prevRows rows prev
  ↔ x ∈ map Row.id rows ∧ (x ∈ prev ∨ x ∉ map Row.id prevRows).
Proof.
  unfold resyncRows_as_specified.
  rewrite elem_of_union, !elem_of_list_to_set, !list_elem_of_filter. tauto.
Qed.

End Resync.

(** C2: the resynchronisation does not compute the specified set: its second
    pass adds every incoming row id, so a row that is in the old and the new
    list and was closed is open again afterwards.  With rows [r1, r2] of which
    the user closed [r1], and the list updated to [r1, r2, r3], the code
    returns [{r1, r2, r3}] where the specified rule gives [{r2, r3}].
    Scenario E, where nothing was closed, comes out as specified. *)
Theorem C2_resync_reopens_closed_rows :
  (∀ (rows : list (Row.t string)) (prev : gset string),
     resyncRows rows prev = list_to_set (map Row.id rows))
  ∧ resyncRows [row "r1"; row "r2"; row "r3"] {["r2"]} = {["r1"; "r2"; "r3"]}
  ∧ resyncRows_as_specified [row "r1"; row "r2"]
      [row "r1"; row "r2"; row "r3"] {["r2"]} = {["r2"; "r3"]}
  ∧ "r1" ∈ resyncRows [row "r1"; row "r2"; row "r3"] {["r2"]}
  ∧ ("r1" ∉ resyncRows_as_specified [row "r1"; row "r2"]
             [row "r1"; row "r2"; row "r3"] {["r2"]})
  ∧ resyncRows [row "r2"; row "r3"] {["r1"; "r2"]} = {["r2"; "r3"]}.
Proof.
  split; [intros; apply resyncRows_all_open|].
  repeat split; by_eval.
Qed.

(** C6: resynchronising twice in a row with the same row list gives the same
    open-row set as resynchronising once. *)
Theorem C6_resync_idempotent {Node : Type}
    (rows : list (Row.t Node)) (prev : gset string) :
  resyncRows rows (resyncRows rows prev) = resyncRows rows prev.
Proof. by rewrite !resyncRows_all_open. Qed.

(** ** Sizing templates, "1fr" layout *)

Lemma permissive_headerTemplateArr_lookup headers (expanded : gset string) i header :
  headers !! i = Some header →
  Permissive.headerTemplateArr headers expanded !! i
  = Some (if bool_decide (HeaderCell.id header ∈ expanded) then "1fr"
          else pretty (getCollapsedWidthCh (HeaderCell.title header)) +:+ "ch").
Proof.
  intros Hi. unfold Permissive.headerTemplateArr.
  change (map ?f ?l) with (f <$> l). by rewrite list_lookup_fmap, Hi.
Qed.

Lemma permissive_valueTemplateArr_lookup headers (expanded : gset string) i header :
  headers !! i = Some header →
  Permissive.valueTemplateArr headers expanded !! i
  = Some (if bool_decide (HeaderCell.id header ∈ expanded) then "1fr" else "0px").
Proof.
  intros Hi. unfold Permissive.valueTemplateArr.
  change (map ?f ?l) with (f <$> l). by rewrite list_lookup_fmap, Hi.
Qed.

(** C8: in the equal-split layout the header template is the space-joined
    list of one token per header, in header order; the token of every
    expanded column is ["1fr"] and the token of every collapsed column is its
    collapsed width [max(len(title) + 4, 8)] followed by ["ch"]. *)
Theorem C8_equal_split_header_template
    (headers : list HeaderCell.t) (expanded : gset string) :
  Permissive.headerTemplate headers expanded
  = String.concat " " (Permissive.headerTemplateArr headers expanded)
  ∧ length (Permissive.headerTemplateArr headers expanded) = length headers
  ∧ ∀ i header,
      headers !! i = Some header →
      (HeaderCell.id header ∈ expanded →
         Permissive.headerTemplateArr headers expanded !! i = Some "1fr")
      ∧ (HeaderCell.id header ∉ expanded →
         Permissive.headerTemplateArr headers expanded !! i
         = Some (pretty (Nat.max (String.length (HeaderCell.title header) + 4) 8)
                 +:+ "ch")).
Proof.
  split; [done|]. split.
  - unfold Permissive.headerTemplateArr. apply length_map.
  - intros i header Hi.
    rewrite (permissive_headerTemplateArr_lookup _ _ _ _ Hi).
    split; intros Hin.
    + by rewrite bool_decide_eq_true_2.
    + by rewrite bool_decide_eq_false_2.
Qed.

Lemma C8_equal_split_header_template_witness :
  Permissive.headerTemplateArr
    [HeaderCell.mk "status" "Status"; hB; HeaderCell.mk "notes" "Notes"]
    {["B"; "notes"]} !! 0 = Some "10ch"
  ∧ Permissive.headerTemplateArr
      [HeaderCell.mk "status" "Status"; hB; HeaderCell.mk "notes" "Notes"]
      {["B"; "notes"]} !! 1 = Some "1fr".
Proof.
  split.
  - apply (proj2 (proj2 (proj2 (C8_equal_split_header_template
        [HeaderCell.mk "status" "Status"; hB; HeaderCell.mk "notes" "Notes"]
        {["B"; "notes"]})) 0 (HeaderCell.mk "status" "Status") eq_refl)).
    by_eval.
  - apply (proj1 (proj2 (proj2 (C8_equal_split_header_template
        [HeaderCell.mk "status" "Status"; hB; HeaderCell.mk "notes" "Notes"]
        {["B"; "notes"]})) 1 hB eq_refl)).
    by_eval.
Defined.

Example permissive_templates_demo :
  Permissive.headerTemplate [hA; hB; hC; hD] {["A"; "C"]} = "1fr 8ch 1fr 8ch"
  ∧ Permissive.valueTemplate [hA; hB; hC; hD] {["A"; "C"]} = "1fr 0px 1fr 0px".
Proof. split; reflexivity. Qed.

(** ** Sizing templates, "halves" layout *)



(** The flag does not show in the value tokens: both of its branches
    return ["50%"]. *)
Lemma strict_valueTemplateArr_lookup collapsedId flag headers i header :
  headers !! i = Some header →
  Strict.valueTemplateArr collapsedId flag headers !! i
  = Some (if bool_decide (HeaderCell.id header = collapsedId) then "0px" else "50%").
Proof.
  revert flag i. induction headers as [|h headers IH]; intros flag i Hi; [done|].
  destruct i as [|i]; cbn in Hi |- *.
  - injection Hi as ->. case_bool_decide; [done | by destruct flag].
  - destruct (bool_decide (HeaderCell.id h = collapsedId));
      [|destruct flag]; cbn; by apply IH.
Qed.

Lemma firstCollapsedId_Some headers (expanded : gset string) collapsedId :
  Strict.firstCollapsedId headers expanded = Some collapsedId →
  ∃ header rest,
    filter (λ h, HeaderCell.id h ∉ expanded) headers = header :: rest
    ∧ HeaderCell.id header = collapsedId
    ∧ header ∈ headers
    ∧ collapsedId ∉ expanded.
Proof.
  unfold Strict.firstCollapsedId. intros Hc.
  destruct (filter _ headers) as [|header rest] eqn:Hf; [done|].
  cbn in Hc. injection Hc as <-. exists header, rest.
  assert (header ∈ filter (λ h, HeaderCell.id h ∉ expanded) headers) as Hin
    by (rewrite Hf; left).
  apply list_elem_of_filter in Hin as [Hp Hin]. done.
Qed.



Lemma strict_templateArrs_value headers (expanded : gset string) headerArr valueArr :
  Strict.templateArrs headers expanded = Some (headerArr, valueArr) →
  (Strict.truthy (Strict.firstCollapsedId headers expanded) = false
   ∧ valueArr = map (λ _, "1fr") headers)
  ∨ (∃ collapsedId,
       Strict.firstCollapsedId headers expanded = Some collapsedId
       ∧ collapsedId ≠ ""
       ∧ valueArr = Strict.valueTemplateArr collapsedId false headers).
Proof.
  unfold Strict.templateArrs.
  destruct (Strict.truthy (Strict.firstCollapsedId headers expanded)) eqn:Ht; cbn.
  - destruct (Strict.firstCollapsedId headers expanded) as [c|]; [|done].
    destruct (Strict.findHeader headers c); [|done].
    intros [= <- <-]. right. exists c. split; [done|]. split; [|done].
    cbn in Ht. intros ->. by rewrite bool_decide_eq_true_2 in Ht.
  - intros [= <- <-]. by left.
Qed.





Example strict_templates_demo :
  Strict.templates [hA; hB; hC] {["A"; "B"]}
  = Some ("50% calc(50% - 8ch) 8ch", "50% 50% 0px")
  ∧ Strict.templates [hA; hB; hC] {["A"; "B"; "C"]}
    = Some ("1fr 1fr 1fr", "1fr 1fr 1fr")
  ∧ Strict.templates [hA; hB; HeaderCell.mk "" "Untitled"] {["A"; "B"]}
    = Some ("1fr 1fr 1fr", "1fr 1fr 1fr").
Proof. repeat split; by_eval. Qed.

(** ** The floor of two expanded columns *)

Lemma initialExpanded_sublist headers :
  initialExpanded headers `sublist_of` headerIds headers.
Proof.
  unfold initialExpanded, headerIds, slice_0_m1.
  destruct (length headers <=? MIN_EXPANDED); [done|].
  change (map ?f ?l) with (f <$> l). rewrite fmap_take. apply sublist_take.
Qed.

Lemma initialExpanded_NoDup headers :
  NoDup (headerIds headers) → NoDup (initialExpanded headers).
Proof.
  intros Hnd. eapply sublist_NoDup; [exact Hnd | apply initialExpanded_sublist].
Qed.

Lemma initialExpanded_length headers :
  2 ≤ length headers → 2 ≤ length (initialExpanded headers).
Proof.
  intros Hlen. unfold initialExpanded, slice_0_m1, MIN_EXPANDED.
  destruct (Nat.leb_spec (length headers) 2); rewrite length_map.
  - done.
  - rewrite length_take. lia.
Qed.

Lemma initialExpandedSet_size headers :
  NoDup (headerIds headers) → 2 ≤ length headers →
  2 ≤ size (initialExpandedSet headers).
Proof.
  intros Hnd Hlen. unfold initialExpandedSet.
  rewrite size_list_to_set by by apply initialExpanded_NoDup.
  by apply initialExpanded_length.
Qed.

Lemma initialExpandedSet_subseteq headers :
  initialExpandedSet headers ⊆ headerIdSet headers.
Proof.
  intros x. unfold initialExpandedSet, headerIdSet.
  rewrite !elem_of_list_to_set. intros Hx.
  eapply elem_of_sublist; [exact Hx | apply initialExpanded_sublist].
Qed.

Lemma permissive_toggle_floor id (prev : gset string) :
  2 ≤ size prev → 2 ≤ size (Permissive.toggle id prev).
Proof.
  intros Hsz. destruct (decide (id ∈ prev)) as [Hin|Hin].
  - destruct (decide (size prev ≤ MIN_EXPANDED)) as [Hle|Hgt].
    + by rewrite permissive_toggle_expanded_at_floor.
    + unfold MIN_EXPANDED in Hgt.
      rewrite permissive_toggle_expanded_above_floor
        by (done || (unfold MIN_EXPANDED; lia)).
      rewrite size_remove_elem by done. lia.
  - rewrite permissive_toggle_collapsed by done.
    pose proof (size_add_le prev id). lia.
Qed.

Lemma strict_toggle_floor headers id (prev : gset string) :
  2 ≤ size prev → 2 ≤ size (Strict.toggle headers id prev).
Proof.
  intros Hsz. destruct (decide (id ∈ prev)) as [Hin|Hin].
  - destruct (decide (size prev = MIN_EXPANDED)) as [Heq|Hne].
    + destruct (Strict.collapsedIds headers prev) as [|c [|c' l]] eqn:Hc.
      * rewrite strict_toggle_nothing_to_swap; rewrite ?Hc; done.
      * rewrite (strict_toggle_swap headers id prev c) by done.
        rewrite strict_swap_size; [done..|].
        apply (elem_of_collapsedIds headers prev c). rewrite Hc. left.
      * rewrite strict_toggle_nothing_to_swap; rewrite ?Hc; done.
    + rewrite strict_toggle_collapse by done.
      rewrite size_remove_elem by done. unfold MIN_EXPANDED in Hne. lia.
  - rewrite strict_toggle_collapsed by done.
    pose proof (size_add_le prev id). lia.
Qed.

Lemma elem_of_headerIdSet headers x :
  x ∈ headerIdSet headers ↔ x ∈ headerIds headers.
Proof. unfold headerIdSet. apply elem_of_list_to_set. Qed.

Lemma permissive_toggle_subseteq headers id (prev : gset string) :
  id ∈ headerIds headers → prev ⊆ headerIdSet headers →
  Permissive.toggle id prev ⊆ headerIdSet headers.
Proof.
  intros Hid%elem_of_headerIdSet Hsub. unfold Permissive.toggle.
  repeat case_match; set_solver.
Qed.

Lemma strict_toggle_subseteq headers id (prev : gset string) :
  id ∈ headerIds headers → prev ⊆ headerIdSet headers →
  Strict.toggle headers id prev ⊆ headerIdSet headers.
Proof.
  intros Hid%elem_of_headerIdSet Hsub. unfold Strict.toggle.
  destruct (Strict.collapsedIds headers prev) as [|c [|c' l]] eqn:Hc;
    repeat case_match; try set_solver.
  assert (c ∈ headerIdSet headers) as Hcin.
  { apply elem_of_headerIdSet, (elem_of_collapsedIds headers prev c).
    rewrite Hc. left. }
  set_solver.
Qed.

(** The floor and the containment in the header ids, along a click sequence. *)
Lemma toggleSeq_invariant (P : gset string → Prop) (Q : string → Prop)
    (toggle : string → gset string → gset string) :
  (∀ id s, Q id → P s → P (toggle id s)) →
  ∀ ids s, Forall Q ids → P s → P (toggleSeq toggle ids s).
Proof.
  intros Hstep ids. unfold toggleSeq.
  induction ids as [|id ids IH]; intros s Hids Hs; [done|].
  inversion Hids; subst. cbn. apply IH; [done|]. by apply Hstep.
Qed.

Lemma Forall_trivial_ids (ids : list string) : Forall (λ _, True) ids.
Proof. by apply Forall_forall. Qed.

(** C1: with at least two headers (of distinct ids, as the data model has
    them), after every prefix of every sequence of toggles from the initial
    state the expanded set has at least two elements, under both toggle
    rules; when the toggled ids are header ids, as they are for clicks on the
    header strip, all of these elements are header ids. *)
Theorem C1_at_least_two_expanded
    (headers : list HeaderCell.t) (ids : list string) (n : nat) :
  NoDup (headerIds headers) →
  2 ≤ length headers →
  (2 ≤ size (toggleSeq Permissive.toggle (take n ids) (initialExpandedSet headers))
   ∧ 2 ≤ size (toggleSeq (Strict.toggle headers) (take n ids)
                 (initialExpandedSet headers)))
  ∧ (Forall (λ id, id ∈ headerIds headers) ids →
     toggleSeq Permissive.toggle (take n ids) (initialExpandedSet headers)
       ⊆ headerIdSet headers
     ∧ toggleSeq (Strict.toggle headers) (take n ids) (initialExpandedSet headers)
       ⊆ headerIdSet headers).
Proof.
  intros Hnd Hlen.
  pose proof (initialExpandedSet_size headers Hnd Hlen) as Hinit.
  pose proof (initialExpandedSet_subseteq headers) as Hsub.
  split; [split|].
  - apply (toggleSeq_invariant (λ s, 2 ≤ size s) (λ _, True));
      [|apply Forall_trivial_ids|done].
    intros id s _. apply permissive_toggle_floor.
  - apply (toggleSeq_invariant (λ s, 2 ≤ size s) (λ _, True));
      [|apply Forall_trivial_ids|done].
    intros id s _. apply strict_toggle_floor.
  - intros Hids. apply (Forall_take _ n) in Hids. split.
    + apply (toggleSeq_invariant (λ s, s ⊆ headerIdSet headers)
               (λ id, id ∈ headerIds headers)); [|done..].
      intros id s. apply permissive_toggle_subseteq.
    + apply (toggleSeq_invariant (λ s, s ⊆ headerIdSet headers)
               (λ id, id ∈ headerIds headers)); [|done..].
      intros id s. apply strict_toggle_subseteq.
Qed.

Lemma C1_at_least_two_expanded_witness :
  NoDup (headerIds [hA; hB; hC])
  ∧ 2 ≤ length [hA; hB; hC]
  ∧ Forall (λ id, id ∈ headerIds [hA; hB; hC]) ["A"; "C"; "B"; "A"]
  ∧ 2 ≤ size (toggleSeq Permissive.toggle (take 4 ["A"; "C"; "B"; "A"])
                (initialExpandedSet [hA; hB; hC]))
  ∧ 2 ≤ size (toggleSeq (Strict.toggle [hA; hB; hC]) (take 4 ["A"; "C"; "B"; "A"])
                (initialExpandedSet [hA; hB; hC]))
  ∧ toggleSeq (Strict.toggle [hA; hB; hC]) (take 4 ["A"; "C"; "B"; "A"])
      (initialExpandedSet [hA; hB; hC]) ⊆ headerIdSet [hA; hB; hC].
Proof.
  assert (NoDup (headerIds [hA; hB; hC])) as H1 by by_eval.
  assert (2 ≤ length [hA; hB; hC]) as H2 by (cbn; lia).
  assert (Forall (λ id, id ∈ headerIds [hA; hB; hC]) ["A"; "C"; "B"; "A"]) as H3
    by by_eval.
  destruct (C1_at_least_two_expanded [hA; hB; hC] ["A"; "C"; "B"; "A"] 4 H1 H2)
    as [[Hp Hs] Hsub].
  destruct (Hsub H3) as [_ Hss].
  repeat split; assumption.
Defined.

(** Why the hypotheses: with a repeated id the initial set is smaller than
    the header list, and a toggle of an id that no header has lets a header id
    be removed although only one other header id remains. *)
Example floor_needs_distinct_ids :
  size (initialExpandedSet [hA; hA]) = 1.
Proof. reflexivity. Qed.

Example floor_counts_foreign_ids :
  toggleSeq Permissive.toggle ["X"; "A"] (initialExpandedSet [hA; hB]) = {["B"; "X"]}
  ∧ Strict.expandedIds [hA; hB]
      (toggleSeq Permissive.toggle ["X"; "A"] (initialExpandedSet [hA; hB])) = ["B"].
Proof. split; by_eval. Qed.

(** ** At most one collapsed column *)

Lemma expandedIds_collapsedIds_length headers (prev : gset string) :
  length (Strict.expandedIds headers prev) + length (Strict.collapsedIds headers prev)
  = length headers.
Proof.
  unfold Strict.expandedIds, Strict.collapsedIds. rewrite !length_map.
  rewrite <- length_app.
  apply Permutation_length,
    (filter_app_complement (λ h, HeaderCell.id h ∈ prev)).
Qed.

Lemma expandedIds_NoDup headers (prev : gset string) :
  NoDup (headerIds headers) → NoDup (Strict.expandedIds headers prev).
Proof.
  intros Hnd. eapply sublist_NoDup; [exact Hnd|].
  unfold Strict.expandedIds, headerIds.
  apply (fmap_sublist HeaderCell.id), sublist_filter.
Qed.

Lemma expandedIds_length headers (prev : gset string) :
  NoDup (headerIds headers) → prev ⊆ headerIdSet headers →
  length (Strict.expandedIds headers prev) = size prev.
Proof.
  intros Hnd Hsub.
  rewrite <- (size_list_to_set (C:=gset string)) by by apply expandedIds_NoDup.
  f_equal. apply set_eq. intros x.
  rewrite elem_of_list_to_set, elem_of_expandedIds.
  split; [tauto|]. intros Hx. split; [|done].
  by apply elem_of_headerIdSet, Hsub.
Qed.

Lemma collapsedIds_length headers (prev : gset string) :
  NoDup (headerIds headers) → prev ⊆ headerIdSet headers →
  length (Strict.collapsedIds headers prev) = length headers - size prev.
Proof.
  intros Hnd Hsub.
  pose proof (expandedIds_collapsedIds_length headers prev).
  pose proof (expandedIds_length headers prev Hnd Hsub). lia.
Qed.

(** What every reachable state satisfies, whatever the number of headers. *)
Lemma strict_reachable_invariant headers (expanded : gset string) :
  NoDup (headerIds headers) → 2 ≤ length headers →
  Strict.reachable headers expanded →
  expanded ⊆ headerIdSet headers ∧ 2 ≤ size expanded.
Proof.
  intros Hnd Hlen Hreach.
  induction Hreach as [|header expanded Hreach [IHsub IHsz] Hin].
  - split; [apply initialExpandedSet_subseteq | by apply initialExpandedSet_size].
  - split.
    + apply strict_toggle_subseteq; [|done].
      unfold headerIds. apply list_elem_of_fmap. eauto.
    + by apply strict_toggle_floor.
Qed.

(** C4 as stated fails: with four headers the initial state has three ids
    expanded, a click on an expanded column just collapses it, and two columns
    are collapsed. *)
Lemma C4_counterexample :
  Strict.reachable [hA; hB; hC; hD] {["A"; "B"]}
  ∧ Strict.collapsedIds [hA; hB; hC; hD] {["A"; "B"]} = ["C"; "D"]
  ∧ ¬ (∀ headers (expanded : gset string),
         NoDup (headerIds headers) →
         3 ≤ length headers →
         Strict.reachable headers expanded →
         length headers - size expanded ≤ 1).
Proof.
  assert (Strict.reachable [hA; hB; hC; hD] {["A"; "B"]}) as Hreach.
  { assert (Strict.toggle [hA; hB; hC; hD] (HeaderCell.id hC)
              (initialExpandedSet [hA; hB; hC; hD]) = {["A"; "B"]}) as <- by by_eval.
    apply Strict.reachable_click; [apply Strict.reachable_init | by_eval]. }
  split; [exact Hreach|]. split; [by_eval|].
  intros Hall.
  assert (NoDup (headerIds [hA; hB; hC; hD])) as Hnd by by_eval.
  specialize (Hall [hA; hB; hC; hD] {["A"; "B"]} Hnd).
  cbn in Hall. specialize (Hall ltac:(lia) Hreach).
  assert (size ({["A"; "B"]} : gset string) = 2) as Hsz by by_eval.
  rewrite Hsz in Hall. lia.
Qed.

(** C4, amended: under the strict policy, for every header list with exactly
    three headers (of distinct ids) and every state reachable from the initial
    expanded-column set by clicks on header cells, at most one column is
    collapsed: [|headers| - |expanded| ≤ 1], and the list of collapsed ids has
    at most one entry. *)
Theorem C4_strict_single_collapse
    (headers : list HeaderCell.t) (expanded : gset string) :
  NoDup (headerIds headers) →
  length headers = 3 →
  Strict.reachable headers expanded →
  length headers - size expanded ≤ 1
  ∧ length (Strict.collapsedIds headers expanded) ≤ 1
  ∧ expanded ⊆ headerIdSet headers.
Proof.
  intros Hnd Hlen Hreach.
  destruct (strict_reachable_invariant headers expanded Hnd ltac:(lia) Hreach)
    as [Hsub Hsz].
  rewrite collapsedIds_length by done.
  split; [lia|]. split; [lia|done].
Qed.

Lemma C4_strict_single_collapse_witness :
  NoDup (headerIds [hA; hB; hC])
  ∧ length [hA; hB; hC] = 3
  ∧ Strict.reachable [hA; hB; hC]
      (Strict.toggle [hA; hB; hC] (HeaderCell.id hB) (initialExpandedSet [hA; hB; hC]))
  ∧ length (Strict.collapsedIds [hA; hB; hC]
              (Strict.toggle [hA; hB; hC] (HeaderCell.id hB)
                 (initialExpandedSet [hA; hB; hC]))) ≤ 1.
Proof.
  assert (NoDup (headerIds [hA; hB; hC])) as H1 by by_eval.
  assert (length [hA; hB; hC] = 3) as H2 by reflexivity.
  assert (Strict.reachable [hA; hB; hC]
            (Strict.toggle [hA; hB; hC] (HeaderCell.id hB)
               (initialExpandedSet [hA; hB; hC]))) as H3.
  { apply Strict.reachable_click; [apply Strict.reachable_init | by_eval]. }
  split; [exact H1|]. split; [exact H2|]. split; [exact H3|].
  exact (proj1 (proj2 (C4_strict_single_collapse _ _ H1 H2 H3))).
Defined.

(** * Further properties of the component *)

(** ** The initial state *)

Lemma filter_none {A : Type} (P : A → Prop) `{∀ x, Decision (P x)} (l : list A) :
  (∀ x, x ∈ l → ¬ P x) → filter P l = [].
Proof.
  induction l as [|a l IH]; intros Hl; [done|].
  rewrite filter_cons_False by (apply Hl; left).
  apply IH. intros x Hx. apply Hl. by right.
Qed.

Lemma filter_all {A : Type} (P : A → Prop) `{∀ x, Decision (P x)} (l : list A) :
  (∀ x, x ∈ l → P x) → filter P l = l.
Proof.
  induction l as [|a l IH]; intros Hl; [done|].
  rewrite filter_cons_True by (apply Hl; left).
  f_equal. apply IH. intros x Hx. apply Hl. by right.
Qed.

Lemma slice_0_m1_snoc {A : Type} (init : list A) (x : A) :
  slice_0_m1 (init ++ [x]) = init.
Proof.
  unfold slice_0_m1. rewrite length_app. cbn.
  replace (length init + 1 - 1) with (length init) by lia.
  by rewrite take_app_length.
Qed.

Lemma initialExpandedSet_small headers :
  length headers ≤ 2 → initialExpandedSet headers = headerIdSet headers.
Proof.
  intros Hlen. unfold initialExpandedSet, initialExpanded, headerIdSet, headerIds.
  unfold MIN_EXPANDED. by destruct (Nat.leb_spec (length headers) 2); [|lia].
Qed.

Lemma collapsedIds_all_expanded headers :
  Strict.collapsedIds headers (headerIdSet headers) = [].
Proof.
  unfold Strict.collapsedIds. rewrite filter_none; [done|].
  intros h Hh Hn. apply Hn, elem_of_headerIdSet.
  unfold headerIds. apply list_elem_of_fmap. eauto.
Qed.

Lemma initialExpandedSet_large headers :
  NoDup (headerIds headers) → 2 < length headers →
  ∃ init lastHeader,
    headers = (init ++ [lastHeader])%list
    ∧ Strict.expandedIds headers (initialExpandedSet headers) = headerIds init
    ∧ Strict.collapsedIds headers (initialExpandedSet headers)
      = [HeaderCell.id lastHeader].
Proof.
  intros Hnd Hlen.
  destruct headers as [|h0 headers0] using rev_ind; [cbn in Hlen; lia|].
  clear IHheaders0. rename headers0 into init, h0 into lastHeader.
  exists init, lastHeader. split; [done|].
  assert (initialExpandedSet (init ++ [lastHeader]) = headerIdSet init) as ->.
  { unfold initialExpandedSet, initialExpanded, MIN_EXPANDED.
    destruct (Nat.leb_spec (length (init ++ [lastHeader])) 2); [lia|].
    by rewrite slice_0_m1_snoc. }
  unfold headerIds in Hnd. change (map ?f ?l) with (f <$> l) in Hnd.
  rewrite fmap_app in Hnd. apply NoDup_app in Hnd as (_ & Hdisj & _).
  assert (HeaderCell.id lastHeader ∉ headerIdSet init) as Hlast.
  { rewrite elem_of_headerIdSet. intros Hin. apply (Hdisj _ Hin). cbn. left. }
  assert (∀ h, h ∈ init → HeaderCell.id h ∈ headerIdSet init) as Hinit.
  { intros h Hh. apply elem_of_headerIdSet. unfold headerIds.
    apply list_elem_of_fmap. eauto. }
  unfold Strict.expandedIds, Strict.collapsedIds. rewrite !filter_app.
  split.
  - rewrite (filter_none (λ h, HeaderCell.id h ∈ headerIdSet init) [lastHeader]).
    + rewrite app_nil_r. f_equal. by apply filter_all.
    + intros h ->%list_elem_of_singleton. done.
  - rewrite (filter_none (λ h, HeaderCell.id h ∉ headerIdSet init) init).
    + rewrite (filter_all (λ h, HeaderCell.id h ∉ headerIdSet init) [lastHeader]);
        [done|].
      by intros h ->%list_elem_of_singleton.
    + intros h Hh Hn. by apply Hn, Hinit.
Qed.

(** X1: With at most two headers every column starts expanded; with more than two
    headers of distinct ids exactly one column starts collapsed, the last
    one, and all the others start expanded. *)
Theorem initial_state_collapses_last (headers : list HeaderCell.t) :
  (length headers ≤ 2 →
     initialExpandedSet headers = headerIdSet headers
     ∧ Strict.collapsedIds headers (initialExpandedSet headers) = [])
  ∧ (NoDup (headerIds headers) → 2 < length headers →
     ∃ init lastHeader,
       headers = (init ++ [lastHeader])%list
       ∧ Strict.expandedIds headers (initialExpandedSet headers) = headerIds init
       ∧ Strict.collapsedIds headers (initialExpandedSet headers)
         = [HeaderCell.id lastHeader]).
Proof.
  split.
  - intros Hlen. rewrite initialExpandedSet_small by done.
    split; [done | apply collapsedIds_all_expanded].
  - apply initialExpandedSet_large.
Qed.

Lemma initial_state_collapses_last_witness :
  length [hA; hB] ≤ 2
  ∧ NoDup (headerIds [hA; hB; hC; hD])
  ∧ 2 < length [hA; hB; hC; hD]
  ∧ initialExpandedSet [hA; hB] = headerIdSet [hA; hB]
  ∧ ∃ init lastHeader,
      [hA; hB; hC; hD] = (init ++ [lastHeader])%list
      ∧ Strict.collapsedIds [hA; hB; hC; hD] (initialExpandedSet [hA; hB; hC; hD])
        = [HeaderCell.id lastHeader].
Proof.
  assert (length [hA; hB] ≤ 2) as H1 by (cbn; lia).
  assert (NoDup (headerIds [hA; hB; hC; hD])) as H2 by by_eval.
  assert (2 < length [hA; hB; hC; hD]) as H3 by (cbn; lia).
  split; [exact H1|]. split; [exact H2|]. split; [exact H3|]. split.
  - exact (proj1 (proj1 (initial_state_collapses_last [hA; hB]) H1)).
  - destruct (proj2 (initial_state_collapses_last [hA; hB; hC; hD]) H2 H3)
      as (init & lastHeader & Heq & _ & Hc).
    exists init, lastHeader. split; [exact Heq | exact Hc].
Defined.

(** ** How toggles compose *)

(** X2: Under the floor rule a second click on the same header undoes the first
    one, whenever at least two ids are expanded: at the floor both clicks do
    nothing, above it the id is removed and added back (or added and
    removed). *)
Theorem permissive_toggle_involutive (id : string) (prev : gset string) :
  2 ≤ size prev →
  Permissive.toggle id (Permissive.toggle id prev) = prev.
Proof.
  intros Hsz. destruct (decide (id ∈ prev)) as [Hin|Hin].
  - destruct (decide (size prev ≤ MIN_EXPANDED)) as [Hle|Hgt].
    + by rewrite !(permissive_toggle_expanded_at_floor id prev Hin Hle).
    + unfold MIN_EXPANDED in Hgt.
      rewrite (permissive_toggle_expanded_above_floor id prev)
        by (done || (unfold MIN_EXPANDED; lia)).
      rewrite permissive_toggle_collapsed by set_solver.
      apply set_eq. intros x.
      rewrite elem_of_union, elem_of_difference, elem_of_singleton.
      destruct (decide (x = id)) as [->|]; tauto.
  - rewrite (permissive_toggle_collapsed id prev) by done.
    rewrite permissive_toggle_expanded_above_floor.
    + apply set_eq. intros x.
      rewrite elem_of_difference, elem_of_union, elem_of_singleton.
      destruct (decide (x = id)) as [->|]; tauto.
    + set_solver.
    + rewrite size_add_fresh by done. unfold MIN_EXPANDED. lia.
Qed.

Lemma permissive_toggle_involutive_witness :
  2 ≤ size ({["A"; "B"; "C"]} : gset string)
  ∧ Permissive.toggle "C" (Permissive.toggle "C" {["A"; "B"; "C"]})
    = {["A"; "B"; "C"]}.
Proof.
  assert (2 ≤ size ({["A"; "B"; "C"]} : gset string)) as H by by_eval.
  split; [exact H | exact (permissive_toggle_involutive "C" _ H)].
Defined.

(** Below the floor the second click does not undo the first: one expanded
    id, a click on a second one, and a further click on it changes nothing. *)
Example permissive_toggle_not_involutive_below_floor :
  Permissive.toggle "B" (Permissive.toggle "B" {["A"]}) = {["A"; "B"]}.
Proof. by_eval. Qed.

(** X3: A click under the floor rule changes the membership of no id but the
    clicked one, and changes the number of expanded ids by at most one. *)
Theorem permissive_toggle_frame (id x : string) (prev : gset string) :
  (x ≠ id → (x ∈ Permissive.toggle id prev ↔ x ∈ prev))
  ∧ size prev - 1 ≤ size (Permissive.toggle id prev)
  ∧ size (Permissive.toggle id prev) ≤ S (size prev).
Proof.
  destruct (decide (id ∈ prev)) as [Hin|Hin].
  - destruct (decide (size prev ≤ MIN_EXPANDED)) as [Hle|Hgt].
    + rewrite permissive_toggle_expanded_at_floor by done.
      split; [done | lia].
    + rewrite permissive_toggle_expanded_above_floor by (done || lia).
      rewrite size_remove_elem by done. split; [set_solver | lia].
  - rewrite permissive_toggle_collapsed by done.
    rewrite size_add_fresh by done. split; [set_solver | lia].
Qed.

Lemma permissive_toggle_frame_witness :
  "B" ≠ "A"
  ∧ ("B" ∈ Permissive.toggle "A" {["A"; "B"; "C"]}
     ↔ "B" ∈ ({["A"; "B"; "C"]} : gset string)).
Proof.
  assert ("B" ≠ "A") as H by by_eval.
  split; [exact H|].
  exact (proj1 (permissive_toggle_frame "A" "B" {["A"; "B"; "C"]}) H).
Defined.

(** X4: A click under the swap rule changes, besides the clicked id, at most the
    ids of collapsed headers: every other id keeps its membership, nothing
    but the clicked id is ever removed, and an id that is added is the
    clicked one or that of a collapsed header. *)
Theorem strict_toggle_frame
    (headers : list HeaderCell.t) (id x : string) (prev : gset string) :
  (x ≠ id → x ∉ Strict.collapsedIds headers prev →
     (x ∈ Strict.toggle headers id prev ↔ x ∈ prev))
  ∧ prev ∖ {[id]} ⊆ Strict.toggle headers id prev
  ∧ Strict.toggle headers id prev
    ⊆ prev ∪ {[id]} ∪ list_to_set (Strict.collapsedIds headers prev).
Proof.
  destruct (decide (id ∈ prev)) as [Hin|Hin].
  - destruct (decide (size prev = MIN_EXPANDED)) as [Heq|Hne].
    + destruct (Strict.collapsedIds headers prev) as [|c [|c' l]] eqn:Hc.
      * rewrite strict_toggle_nothing_to_swap by (rewrite ?Hc; done).
        split; [done | set_solver].
      * rewrite (strict_toggle_swap headers id prev c) by done.
        split; [|set_solver].
        intros Hx Hxc. assert (x ≠ c) by set_solver. set_solver.
      * rewrite strict_toggle_nothing_to_swap by (rewrite ?Hc; done).
        split; [done | set_solver].
    + rewrite strict_toggle_collapse by done. split; [set_solver | set_solver].
  - rewrite strict_toggle_collapsed by done. split; [set_solver | set_solver].
Qed.

Lemma strict_toggle_frame_witness :
  "A" ≠ "B"
  ∧ ("A" ∉ Strict.collapsedIds [hA; hB; hC] {["A"; "B"]})
  ∧ ("A" ∈ Strict.toggle [hA; hB; hC] "B" {["A"; "B"]}
     ↔ "A" ∈ ({["A"; "B"]} : gset string)).
Proof.
  assert ("A" ≠ "B") as H1 by by_eval.
  assert ("A" ∉ Strict.collapsedIds [hA; hB; hC] {["A"; "B"]}) as H2 by by_eval.
  split; [exact H1|]. split; [exact H2|].
  exact (proj1 (strict_toggle_frame [hA; hB; hC] "B" "A" {["A"; "B"]}) H1 H2).
Defined.

(** X5: Under the swap rule a second click does not undo a swap: after a click on
    an expanded column at the floor with one collapsed column, a second click
    on the same column expands it again and the column that was collapsed
    stays expanded. *)
Theorem strict_double_click_expands_all
    (headers : list HeaderCell.t) (id collapsedId : string) (prev : gset string) :
  id ∈ prev → size prev = 2 →
  Strict.collapsedIds headers prev = [collapsedId] →
  Strict.toggle headers id (Strict.toggle headers id prev) = prev ∪ {[collapsedId]}
  ∧ Strict.collapsedIds headers
      (Strict.toggle headers id (Strict.toggle headers id prev)) = [].
Proof.
  intros Hin Hsz Hc.
  rewrite (strict_toggle_swap headers id prev collapsedId) by done.
  rewrite strict_toggle_collapsed by set_solver.
  assert ((prev ∪ {[collapsedId]}) ∖ {[id]} ∪ {[id]} = prev ∪ {[collapsedId]}) as ->.
  { apply set_eq. intros x.
    rewrite !elem_of_union, elem_of_difference, elem_of_union, !elem_of_singleton.
    destruct (decide (x = id)) as [->|]; tauto. }
  split; [done|].
  unfold Strict.collapsedIds. rewrite filter_none; [done|].
  intros h Hh Hn. apply Hn.
  destruct (decide (HeaderCell.id h ∈ prev)) as [|Hp]; [set_solver|].
  assert (HeaderCell.id h ∈ Strict.collapsedIds headers prev) as Hcin.
  { apply elem_of_collapsedIds. split; [|done].
    unfold headerIds. apply list_elem_of_fmap. eauto. }
  rewrite Hc in Hcin. set_solver.
Qed.

Lemma strict_double_click_expands_all_witness :
  Strict.toggle [hA; hB; hC] "B" (Strict.toggle [hA; hB; hC] "B" {["A"; "B"]})
  = {["A"; "B"]} ∪ {["C"]}.
Proof.
  apply (strict_double_click_expands_all [hA; hB; hC] "B" "C" {["A"; "B"]});
    by_eval.
Defined.

(** ** Three columns, two columns *)

(** X6: With three headers of distinct ids the swap rule makes every click
    effective: in every state the header strip can reach, a click on a header
    flips that header, collapsing it when it was expanded and expanding it
    when it was collapsed. *)
Theorem strict_three_headers_click_flips
    (headers : list HeaderCell.t) (expanded : gset string) (header : HeaderCell.t) :
  NoDup (headerIds headers) → length headers = 3 →
  Strict.reachable headers expanded → header ∈ headers →
  (HeaderCell.id header ∈ Strict.toggle headers (HeaderCell.id header) expanded
   ↔ HeaderCell.id header ∉ expanded).
Proof.
  intros Hnd Hlen Hreach Hin.
  destruct (strict_reachable_invariant headers expanded Hnd ltac:(lia) Hreach)
    as [Hsub Hsz].
  destruct (decide (HeaderCell.id header ∈ expanded)) as [He|He].
  - split; [|done]. intros Hres. exfalso. revert Hres.
    destruct (decide (size expanded = MIN_EXPANDED)) as [Heq|Hne].
    + pose proof (collapsedIds_length headers expanded Hnd Hsub) as Hcl.
      rewrite Hlen, Heq in Hcl. cbn in Hcl.
      destruct (Strict.collapsedIds headers expanded) as [|c [|c' l]] eqn:Hc;
        try done.
      rewrite (strict_toggle_swap headers _ expanded c) by done.
      set_solver.
    + rewrite strict_toggle_collapse by done. set_solver.
  - rewrite strict_toggle_collapsed by done. set_solver.
Qed.

Lemma strict_three_headers_click_flips_witness :
  NoDup (headerIds [hA; hB; hC])
  ∧ length [hA; hB; hC] = 3
  ∧ Strict.reachable [hA; hB; hC] (initialExpandedSet [hA; hB; hC])
  ∧ hA ∈ [hA; hB; hC]
  ∧ (HeaderCell.id hA
       ∈ Strict.toggle [hA; hB; hC] (HeaderCell.id hA) (initialExpandedSet [hA; hB; hC])
     ↔ HeaderCell.id hA ∉ initialExpandedSet [hA; hB; hC]).
Proof.
  assert (NoDup (headerIds [hA; hB; hC])) as H1 by by_eval.
  assert (length [hA; hB; hC] = 3) as H2 by reflexivity.
  assert (hA ∈ [hA; hB; hC]) as H4 by by_eval.
  split; [exact H1|]. split; [exact H2|].
  split; [apply Strict.reachable_init|]. split; [exact H4|].
  exact (strict_three_headers_click_flips [hA; hB; hC] _ hA H1 H2
           (Strict.reachable_init _) H4).
Defined.

(** With four headers a click need not be effective under the swap rule:
    at the floor with two collapsed columns there is nothing to swap. *)
Example strict_four_headers_click_stuck :
  Strict.toggle [hA; hB; hC; hD] "A" {["A"; "B"]} = {["A"; "B"]}.
Proof. by_eval. Qed.

(** X7: With exactly two headers of distinct ids no click on the header strip
    ever changes the expanded set, under either rule: both columns stay
    expanded. *)
Theorem two_headers_never_collapse
    (headers : list HeaderCell.t) (ids : list string) :
  NoDup (headerIds headers) → length headers = 2 →
  Forall (λ id, id ∈ headerIds headers) ids →
  toggleSeq Permissive.toggle ids (initialExpandedSet headers) = headerIdSet headers
  ∧ toggleSeq (Strict.toggle headers) ids (initialExpandedSet headers)
    = headerIdSet headers.
Proof.
  intros Hnd Hlen Hids.
  rewrite initialExpandedSet_small by lia.
  assert (size (headerIdSet headers) = 2) as Hsz.
  { unfold headerIdSet. rewrite size_list_to_set by done.
    unfold headerIds. by rewrite length_map. }
  split.
  - apply (toggleSeq_invariant (λ s, s = headerIdSet headers)
             (λ id, id ∈ headerIds headers)); [|done..].
    intros id s Hid ->. apply permissive_toggle_expanded_at_floor.
    + by apply elem_of_headerIdSet.
    + unfold MIN_EXPANDED. lia.
  - apply (toggleSeq_invariant (λ s, s = headerIdSet headers)
             (λ id, id ∈ headerIds headers)); [|done..].
    intros id s Hid ->. apply strict_toggle_nothing_to_swap.
    + by apply elem_of_headerIdSet.
    + done.
    + by rewrite collapsedIds_all_expanded.
Qed.

Lemma two_headers_never_collapse_witness :
  NoDup (headerIds [hA; hB])
  ∧ length [hA; hB] = 2
  ∧ Forall (λ id, id ∈ headerIds [hA; hB]) ["A"; "B"; "B"]
  ∧ toggleSeq Permissive.toggle ["A"; "B"; "B"] (initialExpandedSet [hA; hB])
    = headerIdSet [hA; hB].
Proof.
  assert (NoDup (headerIds [hA; hB])) as H1 by by_eval.
  assert (length [hA; hB] = 2) as H2 by reflexivity.
  assert (Forall (λ id, id ∈ headerIds [hA; hB]) ["A"; "B"; "B"]) as H3 by by_eval.
  split; [exact H1|]. split; [exact H2|]. split; [exact H3|].
  exact (proj1 (two_headers_never_collapse [hA; hB] ["A"; "B"; "B"] H1 H2 H3)).
Defined.

(** ** The header strip in the "halves" layout *)

Lemma strict_headerTemplateArr_lookup collapsedId collapsedWidth flag headers i header :
  headers !! i = Some header →
  Strict.headerTemplateArr collapsedId collapsedWidth flag headers !! i
  = Some (if bool_decide (HeaderCell.id header = collapsedId) then collapsedWidth
          else if flag || bool_decide (Exists (λ h, HeaderCell.id h ≠ collapsedId)
                                         (take i headers))
               then "calc(50% - " +:+ collapsedWidth +:+ ")"
               else "50%").
Proof.
  revert flag i. induction headers as [|h headers IH]; intros flag i Hi; [done|].
  destruct i as [|i]; cbn in Hi.
  - injection Hi as ->. cbn [Strict.headerTemplateArr take].
    rewrite (bool_decide_eq_false_2 (Exists _ [])) by (by intros ?%Exists_nil).
    rewrite orb_false_r.
    case_bool_decide; [done | by destruct flag].
  - cbn [Strict.headerTemplateArr take].
    destruct (decide (HeaderCell.id h = collapsedId)) as [Hh|Hh].
    + rewrite (bool_decide_eq_true_2 _ Hh). cbv iota.
      change ((?x :: ?l) !! S ?n) with (l !! n).
      rewrite (IH flag i Hi).
      assert (bool_decide (Exists (λ h, HeaderCell.id h ≠ collapsedId)
                             (h :: take i headers))
              = bool_decide (Exists (λ h, HeaderCell.id h ≠ collapsedId)
                               (take i headers))) as ->; [|done].
      apply bool_decide_ext. rewrite Exists_cons. tauto.
    + rewrite (bool_decide_eq_false_2 _ Hh).
      rewrite (bool_decide_eq_true_2 (Exists _ (h :: take i headers)))
        by (by apply Exists_cons_hd).
      rewrite orb_true_r.
      destruct flag; cbn [negb]; cbv iota;
        change ((?x :: ?l) !! S ?n) with (l !! n);
        rewrite (IH true i Hi); done.
Qed.

Lemma findHeader_unique headers i header :
  NoDup (headerIds headers) → headers !! i = Some header →
  Strict.findHeader headers (HeaderCell.id header) = Some header.
Proof.
  intros Hnd Hi. unfold Strict.findHeader.
  destruct (list_find_elem_of (λ h, HeaderCell.id h = HeaderCell.id header)
              headers header) as [[j found] Hfind];
    [by eapply list_elem_of_lookup_2 | done |].
  rewrite Hfind. cbn. f_equal.
  apply list_find_Some in Hfind as (Hj & Hid & _).
  assert (i = j) as ->.
  { apply (NoDup_lookup (headerIds headers) i j (HeaderCell.id header)); [done|..];
      unfold headerIds; change (map ?f ?l) with (f <$> l);
      rewrite list_lookup_fmap.
    - by rewrite Hi.
    - rewrite Hj. cbn. by rewrite Hid. }
  congruence.
Qed.

(** X8: In the "halves" layout, whenever a column with a non-empty id is
    collapsed, the templates are produced (the [find] never fails), every
    column carrying the first collapsed id gets the collapsed width of the
    first header with that id, and among the other columns exactly the first
    one in header order gets ["50%"] while every later one gets
    ["calc(50% - <collapsed width>)"], expanded or not. *)
Theorem strict_header_template_halves
    (headers : list HeaderCell.t) (expanded : gset string)
    (collapsedId : string) (i : nat) (header : HeaderCell.t) :
  Strict.firstCollapsedId headers expanded = Some collapsedId →
  collapsedId ≠ "" →
  headers !! i = Some header →
  ∃ headerArr valueArr collapsedHeader,
    Strict.templateArrs headers expanded = Some (headerArr, valueArr)
    ∧ Strict.findHeader headers collapsedId = Some collapsedHeader
    ∧ headerArr !! i
      = Some (let collapsedWidth :=
                pretty (getCollapsedWidthCh (HeaderCell.title collapsedHeader))
                +:+ "ch" in
              if bool_decide (HeaderCell.id header = collapsedId)
              then collapsedWidth
              else if bool_decide (Exists (λ h, HeaderCell.id h ≠ collapsedId)
                                     (take i headers))
                   then "calc(50% - " +:+ collapsedWidth +:+ ")"
                   else "50%").
Proof.
  intros Hc Hne Hi.
  destruct (firstCollapsedId_Some _ _ _ Hc) as (h0 & rest & _ & Hid & Hin & _).
  unfold Strict.templateArrs. rewrite Hc. cbn [Strict.truthy].
  rewrite (bool_decide_eq_false_2 _ Hne). cbn [negb].
  unfold Strict.findHeader at 1 2.
  destruct (list_find_elem_of (λ h, HeaderCell.id h = collapsedId) headers h0 Hin Hid)
    as [[j found] ->]. cbn.
  eexists _, _, found. split; [done|]. split; [done|].
  by rewrite (strict_headerTemplateArr_lookup _ _ false headers i header Hi).
Qed.

Lemma strict_header_template_halves_witness :
  Strict.firstCollapsedId [hA; hB; hC; hD] {["B"; "C"; "D"]} = Some "A"
  ∧ "A" ≠ ""
  ∧ ∃ headerArr valueArr,
      Strict.templateArrs [hA; hB; hC; hD] {["B"; "C"; "D"]}
      = Some (headerArr, valueArr)
      ∧ headerArr !! 2 = Some "calc(50% - 8ch)".
Proof.
  assert (Strict.firstCollapsedId [hA; hB; hC; hD] {["B"; "C"; "D"]} = Some "A")
    as H1 by by_eval.
  assert ("A" ≠ "") as H2 by by_eval.
  split; [exact H1|]. split; [exact H2|].
  destruct (strict_header_template_halves [hA; hB; hC; hD] {["B"; "C"; "D"]}
              "A" 2 hC H1 H2 eq_refl)
    as (headerArr & valueArr & collapsedHeader & Heq & Hfind & Hlook).
  exists headerArr, valueArr. split; [exact Heq|].
  rewrite Hlook. clear Hlook Heq.
  assert (Strict.findHeader [hA; hB; hC; hD] "A" = Some hA) as Hf by by_eval.
  rewrite Hf in Hfind. injection Hfind as <-. by_eval.
Defined.

(** ** Header buttons against the header template *)

Lemma headerCells_lookup headers (expanded : gset string) i header :
  headers !! i = Some header →
  headerCells headers expanded !! i
  = Some (HeaderButton.mk (HeaderCell.id header) (HeaderCell.id header)
            (if bool_decide (HeaderCell.id header ∈ expanded) then MinWidthPx 140
             else MinWidthStr
                    (pretty (getCollapsedWidthCh (HeaderCell.title header)) +:+ "ch"))
            (if bool_decide (HeaderCell.id header ∈ expanded) then 90 else 0)).
Proof.
  intros Hi. unfold headerCells.
  change (map ?f ?l) with (f <$> l). by rewrite list_lookup_fmap, Hi.
Qed.

(** X9: The grid track of a collapsed column is the [minWidth] of its button: in
    the "1fr" layout for every collapsed column, in the "halves" layout for
    the first collapsed column when header ids are distinct and that id is not
    empty. *)
Theorem collapsed_track_is_button_min_width
    (headers : list HeaderCell.t) (expanded : gset string)
    (i : nat) (header : HeaderCell.t) :
  headers !! i = Some header →
  HeaderCell.id header ∉ expanded →
  (∃ track,
     Permissive.headerTemplateArr headers expanded !! i = Some track
     ∧ HeaderButton.minWidth <$> headerCells headers expanded !! i
       = Some (MinWidthStr track))
  ∧ (NoDup (headerIds headers) →
     Strict.firstCollapsedId headers expanded = Some (HeaderCell.id header) →
     HeaderCell.id header ≠ "" →
     ∃ headerArr valueArr track,
       Strict.templateArrs headers expanded = Some (headerArr, valueArr)
       ∧ headerArr !! i = Some track
       ∧ HeaderButton.minWidth <$> headerCells headers expanded !! i
         = Some (MinWidthStr track)).
Proof.
  intros Hi He.
  rewrite (headerCells_lookup headers expanded i header Hi).
  rewrite (bool_decide_eq_false_2 _ He). cbn [fmap option_fmap option_map].
  split.
  - eexists. split; [|done].
    rewrite (permissive_headerTemplateArr_lookup headers expanded i header Hi).
    by rewrite (bool_decide_eq_false_2 _ He).
  - intros Hnd Hc Hne.
    unfold Strict.templateArrs. rewrite Hc. cbn [Strict.truthy].
    rewrite (bool_decide_eq_false_2 _ Hne). cbn [negb]. cbv iota.
    rewrite (findHeader_unique headers i header Hnd Hi).
    eexists _, _, _. split; [done|]. split; [|done].
    rewrite (strict_headerTemplateArr_lookup _ _ false headers i header Hi).
    by rewrite bool_decide_eq_true_2.
Qed.

Lemma collapsed_track_is_button_min_width_witness :
  [hA; HeaderCell.mk "status" "Status"; hC] !! 1
  = Some (HeaderCell.mk "status" "Status")
  ∧ ("status" ∉ ({["A"; "C"]} : gset string))
  ∧ NoDup (headerIds [hA; HeaderCell.mk "status" "Status"; hC])
  ∧ ∃ headerArr valueArr track,
      Strict.templateArrs [hA; HeaderCell.mk "status" "Status"; hC] {["A"; "C"]}
      = Some (headerArr, valueArr)
      ∧ headerArr !! 1 = Some track
      ∧ HeaderButton.minWidth
          <$> headerCells [hA; HeaderCell.mk "status" "Status"; hC] {["A"; "C"]} !! 1
        = Some (MinWidthStr track).
Proof.
  assert ("status" ∉ ({["A"; "C"]} : gset string)) as H2 by by_eval.
  assert (NoDup (headerIds [hA; HeaderCell.mk "status" "Status"; hC])) as H3
    by by_eval.
  split; [reflexivity|]. split; [exact H2|]. split; [exact H3|].
  apply (proj2 (collapsed_track_is_button_min_width
                  [hA; HeaderCell.mk "status" "Status"; hC] {["A"; "C"]} 1
                  (HeaderCell.mk "status" "Status") eq_refl H2)).
  - exact H3.
  - by_eval.
  - by_eval.
Defined.

(** A second collapsed column of the "halves" layout keeps its narrow button
    but is given half of the strip. *)
Example strict_second_collapsed_track :
  fst <$> Strict.templateArrs [hA; hB; hC; hD] {["A"; "B"]}
  = Some ["50%"; "calc(50% - 8ch)"; "8ch"; "calc(50% - 8ch)"]
  ∧ HeaderButton.minWidth <$> headerCells [hA; hB; hC; hD] {["A"; "B"]} !! 3
    = Some (MinWidthStr "8ch").
Proof. split; [by_eval | vm_compute; reflexivity]. Qed.

(** ** The cells of a row panel *)

Section RowCells.
Context {Node : Type}.
Implicit Types (row : Row.t Node) (expanded : gset string).

Lemma rowCellsStrictFrom_lookup expanded row idx visibleOrder headers i header :
  headers !! i = Some header →
  rowCellsStrictFrom expanded row idx visibleOrder headers !! i
  = Some (if bool_decide (HeaderCell.id header ∈ expanded) then
            let order :=
              visibleOrder
              + length (filter (λ h, HeaderCell.id h ∈ expanded) (take i headers)) in
            Cell.block (HeaderCell.id header) (idx + i + 1)
              (Some (if 0 <? order then "1px solid #e5e5e5" else "none"))
              (Some (if 0 <? order then 12 else 0))
              (HeaderCell.title header)
              (Row.blocks row !! HeaderCell.id header)
          else Cell.hidden (HeaderCell.id header) (idx + i + 1)).
Proof.
  revert idx visibleOrder i.
  induction headers as [|h headers IH]; intros idx visibleOrder i Hi; [done|].
  destruct i as [|i]; cbn in Hi.
  - injection Hi as ->. cbn [rowCellsStrictFrom take].
    rewrite filter_nil. cbn [length].
    rewrite !Nat.add_0_r.
    by case_bool_decide.
  - cbn [rowCellsStrictFrom take].
    destruct (decide (HeaderCell.id h ∈ expanded)) as [Hh|Hh].
    + rewrite (bool_decide_eq_true_2 _ Hh). cbn [negb]. cbv iota.
      change ((?x :: ?l) !! S ?n) with (l !! n).
      rewrite (IH (S idx) (S visibleOrder) i Hi).
      rewrite filter_cons_True by done. cbn [length].
      replace (S idx + i + 1) with (idx + S i + 1) by lia.
      replace (S visibleOrder
               + length (filter (λ h, HeaderCell.id h ∈ expanded) (take i headers)))
        with (visibleOrder
              + S (length (filter (λ h, HeaderCell.id h ∈ expanded) (take i headers))))
        by lia.
      done.
    + rewrite (bool_decide_eq_false_2 _ Hh). cbn [negb]. cbv iota.
      change ((?x :: ?l) !! S ?n) with (l !! n).
      rewrite (IH (S idx) visibleOrder i Hi).
      rewrite filter_cons_False by done.
      replace (S idx + i + 1) with (idx + S i + 1) by lia.
      done.
Qed.

Lemma rowCellsStrictFrom_length expanded row idx visibleOrder headers :
  length (rowCellsStrictFrom expanded row idx visibleOrder headers) = length headers.
Proof.
  revert idx visibleOrder.
  induction headers as [|h headers IH]; intros idx visibleOrder; [done|].
  cbn. destruct (bool_decide (HeaderCell.id h ∈ expanded)); cbn; by rewrite IH.
Qed.

Lemma rowCellsPermissive_lookup headers expanded row i header :
  headers !! i = Some header →
  rowCellsPermissive headers expanded row !! i
  = Some (if bool_decide (HeaderCell.id header ∈ expanded) then
            Cell.block (HeaderCell.id header) (i + 1) None None
              (HeaderCell.title header) (Row.blocks row !! HeaderCell.id header)
          else Cell.hidden (HeaderCell.id header) (i + 1)).
Proof.
  intros Hi. unfold rowCellsPermissive.
  rewrite list_lookup_imap, Hi. cbn. by case_bool_decide.
Qed.

(** The visible cells of a panel are as many as [expandedIds] has entries. *)
Lemma rowCellsStrictFrom_visible expanded row idx visibleOrder headers :
  length (filter (λ c, Cell.isHidden c = false)
            (rowCellsStrictFrom expanded row idx visibleOrder headers))
  = length (Strict.expandedIds headers expanded).
Proof.
  unfold Strict.expandedIds. rewrite length_map. revert idx visibleOrder.
  induction headers as [|h headers IH]; intros idx visibleOrder; [done|].
  cbn [rowCellsStrictFrom].
  destruct (decide (HeaderCell.id h ∈ expanded)) as [Hh|Hh].
  - rewrite (bool_decide_eq_true_2 _ Hh). cbn [negb]. cbv iota.
    rewrite filter_cons_True by done.
    rewrite (filter_cons_True (λ h, HeaderCell.id h ∈ expanded)) by done.
    cbn [length]. by rewrite IH.
  - rewrite (bool_decide_eq_false_2 _ Hh). cbn [negb]. cbv iota.
    rewrite filter_cons_False by done.
    rewrite (filter_cons_False (λ h, HeaderCell.id h ∈ expanded)) by done.
    apply IH.
Qed.

Lemma imap_filter_length {A B : Type} (P : B → Prop) (Q : A → Prop)
    `{∀ y, Decision (P y)} `{∀ x, Decision (Q x)} (f : nat → A → B) (l : list A) :
  (∀ i x, P (f i x) ↔ Q x) →
  length (filter P (imap f l)) = length (filter Q l).
Proof.
  revert f. induction l as [|x l IH]; intros f Hf; [done|].
  rewrite imap_cons. destruct (decide (Q x)) as [Hx|Hx].
  - rewrite filter_cons_True by by apply Hf.
    rewrite (filter_cons_True Q) by done.
    cbn [length]. f_equal. apply IH. intros i y. apply Hf.
  - rewrite filter_cons_False by by rewrite Hf.
    rewrite (filter_cons_False Q) by done.
    apply IH. intros i y. apply Hf.
Qed.

Lemma rowCellsPermissive_visible headers expanded row :
  length (filter (λ c, Cell.isHidden c = false)
            (rowCellsPermissive headers expanded row))
  = length (Strict.expandedIds headers expanded).
Proof.
  unfold Strict.expandedIds, rowCellsPermissive. rewrite length_map.
  apply imap_filter_length. intros i h. cbn.
  case_bool_decide; cbn; split; done.
Qed.

End RowCells.

Lemma filter_length_pos {A : Type} (P : A → Prop) `{∀ x, Decision (P x)} (l : list A) :
  0 < length (filter P l) ↔ Exists P l.
Proof.
  induction l as [|a l IH].
  - cbn. rewrite Exists_nil. lia.
  - rewrite Exists_cons. destruct (decide (P a)) as [Ha|Ha].
    + rewrite filter_cons_True by done. cbn. split; [tauto | lia].
    + rewrite filter_cons_False by done. tauto.
Qed.

(** X10: First revision: a row panel has one cell per header, in header order,
    cell [i] in grid column [i + 1] and keyed by the header id; the cell of a
    collapsed column is a hidden placeholder, the cell of an expanded column
    carries the header title and the row's block for that id (nothing when the
    row has none), and it has the left divider and its padding exactly when
    some expanded column comes before it. *)
Theorem strict_row_cells_layout {Node : Type}
    (headers : list HeaderCell.t) (expanded : gset string) (row : Row.t Node) :
  length (rowCellsStrict headers expanded row) = length headers
  ∧ ∀ i header,
      headers !! i = Some header →
      (HeaderCell.id header ∉ expanded →
         rowCellsStrict headers expanded row !! i
         = Some (Cell.hidden (HeaderCell.id header) (i + 1)))
      ∧ (HeaderCell.id header ∈ expanded →
         rowCellsStrict headers expanded row !! i
         = Some (let preceded :=
                   bool_decide (Exists (λ h, HeaderCell.id h ∈ expanded)
                                  (take i headers)) in
                 Cell.block (HeaderCell.id header) (i + 1)
                   (Some (if preceded then "1px solid #e5e5e5" else "none"))
                   (Some (if preceded then 12 else 0))
                   (HeaderCell.title header)
                   (Row.blocks row !! HeaderCell.id header))).
Proof.
  split; [apply rowCellsStrictFrom_length|].
  intros i header Hi. unfold rowCellsStrict.
  rewrite (rowCellsStrictFrom_lookup expanded row 0 0 headers i header Hi).
  split; intros He.
  - by rewrite (bool_decide_eq_false_2 _ He).
  - rewrite (bool_decide_eq_true_2 _ He). cbn zeta. rewrite !Nat.add_0_l.
    assert ((0 <? length (filter (λ h, HeaderCell.id h ∈ expanded) (take i headers)))
            = bool_decide (Exists (λ h, HeaderCell.id h ∈ expanded) (take i headers)))
      as ->; [|done].
    destruct (Nat.ltb_spec 0
                (length (filter (λ h, HeaderCell.id h ∈ expanded) (take i headers))))
      as [Hlt|Hge]; symmetry.
    + apply bool_decide_eq_true_2.
      by apply (filter_length_pos (λ h, HeaderCell.id h ∈ expanded)).
    + apply bool_decide_eq_false_2. intros Hex.
      apply (filter_length_pos (λ h, HeaderCell.id h ∈ expanded)) in Hex. lia.
Qed.

Lemma strict_row_cells_layout_witness :
  [hA; hB; hC] !! 2 = Some hC
  ∧ HeaderCell.id hC ∈ ({["B"; "C"]} : gset string)
  ∧ rowCellsStrict [hA; hB; hC] {["B"; "C"]} (Row.mk "r1" {["B" := "Bob"]}) !! 2
    = Some (Cell.block "C" 3 (Some "1px solid #e5e5e5") (Some 12) "C" None).
Proof.
  assert (HeaderCell.id hC ∈ ({["B"; "C"]} : gset string)) as H by by_eval.
  split; [reflexivity|]. split; [exact H|].
  rewrite (proj2 (proj2 (strict_row_cells_layout [hA; hB; hC] {["B"; "C"]}
                           (Row.mk "r1" {["B" := "Bob"]})) 2 hC eq_refl) H).
  vm_compute. reflexivity.
Defined.

(** X11: A row panel reads only the blocks of expanded columns: two rows that
    agree on the blocks stored under the ids of the expanded headers produce
    the same cells, whatever else their [blocks] hold and whatever their row
    ids are. *)
Theorem row_cells_read_expanded_blocks_only {Node : Type}
    (headers : list HeaderCell.t) (expanded : gset string) (row row' : Row.t Node) :
  (∀ header, header ∈ headers → HeaderCell.id header ∈ expanded →
     Row.blocks row !! HeaderCell.id header = Row.blocks row' !! HeaderCell.id header) →
  rowCellsStrict headers expanded row = rowCellsStrict headers expanded row'
  ∧ rowCellsPermissive headers expanded row = rowCellsPermissive headers expanded row'.
Proof.
  intros Hagree. split; apply list_eq; intros i;
    destruct (headers !! i) as [header|] eqn:Hi.
  - unfold rowCellsStrict. rewrite !(rowCellsStrictFrom_lookup _ _ _ _ _ _ _ Hi).
    case_bool_decide; [|done].
    rewrite Hagree; [done | by eapply list_elem_of_lookup_2 | done].
  - apply lookup_ge_None in Hi.
    rewrite !(proj2 (lookup_ge_None _ _)); [done|..];
      unfold rowCellsStrict; by rewrite rowCellsStrictFrom_length.
  - rewrite !(rowCellsPermissive_lookup _ _ _ _ _ Hi).
    case_bool_decide; [|done].
    rewrite Hagree; [done | by eapply list_elem_of_lookup_2 | done].
  - apply lookup_ge_None in Hi.
    rewrite !(proj2 (lookup_ge_None _ _)); [done|..];
      unfold rowCellsPermissive; by rewrite length_imap.
Qed.

Lemma row_cells_read_expanded_blocks_only_witness :
  rowCellsStrict [hA; hB; hC] {["A"; "B"]}
    (Row.mk "r1" {["A" := "x"; "C" := "hidden"; "Z" := "stray"]})
  = rowCellsStrict [hA; hB; hC] {["A"; "B"]} (Row.mk "r2" {["A" := "x"]}).
Proof.
  refine (proj1 (row_cells_read_expanded_blocks_only [hA; hB; hC] {["A"; "B"]}
                   (Row.mk "r1" {["A" := "x"; "C" := "hidden"; "Z" := "stray"]})
                   (Row.mk "r2" {["A" := "x"]}) _)).
  intros header Hin He. cbn.
  apply list_elem_of_In in Hin. cbn in Hin.
  destruct Hin as [<-|[<-|[<-|[]]]]; [reflexivity | reflexivity |].
  exfalso. revert He. by_eval.
Defined.

(** ** Value tracks against row cells *)

(** X12: A zero-width value track only ever lies over a hidden cell.  In the "1fr"
    layout the converse holds too: the track of a cell is ["0px"] exactly
    when the cell is hidden. *)
Theorem zero_width_track_hides_cell {Node : Type}
    (headers : list HeaderCell.t) (expanded : gset string) (row : Row.t Node)
    (i : nat) (header : HeaderCell.t) :
  headers !! i = Some header →
  (Permissive.valueTemplateArr headers expanded !! i = Some "0px"
   ↔ Cell.isHidden <$> rowCellsPermissive headers expanded row !! i = Some true)
  ∧ (∀ headerArr valueArr,
       Strict.templateArrs headers expanded = Some (headerArr, valueArr) →
       valueArr !! i = Some "0px" →
       Cell.isHidden <$> rowCellsStrict headers expanded row !! i = Some true).
Proof.
  intros Hi. split.
  - rewrite (permissive_valueTemplateArr_lookup headers expanded i header Hi).
    rewrite (rowCellsPermissive_lookup headers expanded row i header Hi).
    case_bool_decide; cbn; split; intros [=]; done.
  - intros headerArr valueArr Heq Hzero.
    unfold rowCellsStrict.
    rewrite (rowCellsStrictFrom_lookup expanded row 0 0 headers i header Hi).
    destruct (strict_templateArrs_value _ _ _ _ Heq)
      as [[_ ->] | (c & Hc & _ & ->)].
    + change (map ?f ?l) with (f <$> l) in Hzero.
      rewrite list_lookup_fmap, Hi in Hzero. done.
    + rewrite (strict_valueTemplateArr_lookup c false headers i header Hi) in Hzero.
      apply firstCollapsedId_Some in Hc as (_ & _ & _ & _ & _ & Hx).
      case_bool_decide as Hid; [|done]. subst c.
      by rewrite (bool_decide_eq_false_2 _ Hx).
Qed.

Lemma zero_width_track_hides_cell_witness :
  [hA; hB; hC] !! 2 = Some hC
  ∧ (Permissive.valueTemplateArr [hA; hB; hC] {["A"; "B"]} !! 2 = Some "0px"
     ↔ Cell.isHidden <$> rowCellsPermissive [hA; hB; hC] {["A"; "B"]} (row "r1") !! 2
       = Some true).
Proof.
  split; [reflexivity|].
  exact (proj1 (zero_width_track_hides_cell [hA; hB; hC] {["A"; "B"]} (row "r1")
                  2 hC eq_refl)).
Defined.

(** In the "halves" layout the converse fails once two columns are
    collapsed: the cell of [D] is hidden and its track is ["50%"]. *)
Example strict_hidden_cell_with_wide_track :
  Cell.isHidden <$> rowCellsStrict [hA; hB; hC; hD] {["A"; "B"]} (row "r1") !! 3
  = Some true
  ∧ snd <$> Strict.templateArrs [hA; hB; hC; hD] {["A"; "B"]}
    = Some ["50%"; "50%"; "0px"; "50%"].
Proof. split; by_eval. Qed.

(** ** Two blocks are always shown *)

Lemma toggleSeq_header_clicks_invariant headers ids :
  NoDup (headerIds headers) → 2 ≤ length headers →
  Forall (λ id, id ∈ headerIds headers) ids →
  (toggleSeq Permissive.toggle ids (initialExpandedSet headers) ⊆ headerIdSet headers
   ∧ 2 ≤ size (toggleSeq Permissive.toggle ids (initialExpandedSet headers)))
  ∧ (toggleSeq (Strict.toggle headers) ids (initialExpandedSet headers)
       ⊆ headerIdSet headers
     ∧ 2 ≤ size (toggleSeq (Strict.toggle headers) ids (initialExpandedSet headers))).
Proof.
  intros Hnd Hlen Hids.
  pose proof (initialExpandedSet_size headers Hnd Hlen) as Hinit.
  pose proof (initialExpandedSet_subseteq headers) as Hsub.
  split.
  - apply (toggleSeq_invariant (λ s, s ⊆ headerIdSet headers ∧ 2 ≤ size s)
             (λ id, id ∈ headerIds headers)); [|done..].
    intros id s Hid [Hs Hz].
    split; [by apply permissive_toggle_subseteq | by apply permissive_toggle_floor].
  - apply (toggleSeq_invariant (λ s, s ⊆ headerIdSet headers ∧ 2 ≤ size s)
             (λ id, id ∈ headerIds headers)); [|done..].
    intros id s Hid [Hs Hz].
    split; [by apply strict_toggle_subseteq | by apply strict_toggle_floor].
Qed.

(** X13: With at least two headers of distinct ids, after any sequence of clicks
    on the header strip every row panel shows at least two blocks, in both
    revisions. *)
Theorem every_row_shows_two_blocks {Node : Type}
    (headers : list HeaderCell.t) (ids : list string) (row : Row.t Node) :
  NoDup (headerIds headers) → 2 ≤ length headers →
  Forall (λ id, id ∈ headerIds headers) ids →
  2 ≤ length (filter (λ c, Cell.isHidden c = false)
                (rowCellsPermissive headers
                   (toggleSeq Permissive.toggle ids (initialExpandedSet headers)) row))
  ∧ 2 ≤ length (filter (λ c, Cell.isHidden c = false)
                  (rowCellsStrict headers
                     (toggleSeq (Strict.toggle headers) ids
                        (initialExpandedSet headers)) row)).
Proof.
  intros Hnd Hlen Hids.
  destruct (toggleSeq_header_clicks_invariant headers ids Hnd Hlen Hids)
    as [[Hps Hpz] [Hss Hsz]].
  split.
  - rewrite rowCellsPermissive_visible, expandedIds_length by done. done.
  - unfold rowCellsStrict.
    rewrite rowCellsStrictFrom_visible, expandedIds_length by done. done.
Qed.

Lemma every_row_shows_two_blocks_witness :
  NoDup (headerIds [hA; hB; hC])
  ∧ 2 ≤ length [hA; hB; hC]
  ∧ Forall (λ id, id ∈ headerIds [hA; hB; hC]) ["C"; "A"; "B"]
  ∧ 2 ≤ length (filter (λ c, Cell.isHidden c = false)
                  (rowCellsStrict [hA; hB; hC]
                     (toggleSeq (Strict.toggle [hA; hB; hC]) ["C"; "A"; "B"]
                        (initialExpandedSet [hA; hB; hC])) (row "r1"))).
Proof.
  assert (NoDup (headerIds [hA; hB; hC])) as H1 by by_eval.
  assert (2 ≤ length [hA; hB; hC]) as H2 by (cbn; lia).
  assert (Forall (λ id, id ∈ headerIds [hA; hB; hC]) ["C"; "A"; "B"]) as H3 by by_eval.
  split; [exact H1|]. split; [exact H2|]. split; [exact H3|].
  exact (proj2 (every_row_shows_two_blocks [hA; hB; hC] ["C"; "A"; "B"] (row "r1")
                  H1 H2 H3)).
Defined.

(** ** Rows that come and go *)

Lemma size_list_to_set_le (l : list string) :
  size (list_to_set l : gset string) ≤ length l.
Proof.
  induction l as [|a l IH]; cbn.
  - by rewrite size_empty.
  - rewrite size_union_alt, size_singleton.
    assert (size ((list_to_set l : gset string) ∖ {[a]})
            ≤ size (list_to_set l : gset string))
      by (apply subseteq_size; set_solver).
    lia.
Qed.

(** X14: After a resynchronisation the open-row set holds the id of every row of
    the new list and no other id, so rows that left the list are dropped and
    keys that [onChange] stored for no row are discarded; the result is the
    set a fresh mount would start with, and it has at most as many elements
    as the list has rows. *)
Theorem resync_opens_current_rows_only {Node : Type}
    (rows : list (Row.t Node)) (prev : gset string) (keys : string + list string) :
  (∀ r, r ∈ rows → Row.id r ∈ resyncRows rows prev)
  ∧ (∀ x, x ∉ map Row.id rows → x ∉ resyncRows rows prev)
  ∧ resyncRows rows (onChange keys prev) = initialOpenRows rows
  ∧ size (resyncRows rows prev) ≤ length rows.
Proof.
  rewrite !resyncRows_all_open. unfold initialOpenRows.
  split; [|split; [|split]].
  - intros r Hr. apply elem_of_list_to_set, list_elem_of_fmap. eauto.
  - intros x Hx Hin. apply elem_of_list_to_set in Hin. by apply Hx.
  - done.
  - rewrite <- (length_map Row.id rows). apply size_list_to_set_le.
Qed.

Lemma resync_opens_current_rows_only_witness :
  row "r3" ∈ [row "r2"; row "r3"]
  ∧ Row.id (row "r3") ∈ resyncRows [row "r2"; row "r3"] {["r1"]}
  ∧ ("r1" ∉ map Row.id [row "r2"; row "r3"])
  ∧ ("r1" ∉ resyncRows [row "r2"; row "r3"] {["r1"]}).
Proof.
  assert (row "r3" ∈ [row "r2"; row "r3"]) as H1 by (right; left).
  assert ("r1" ∉ map Row.id [row "r2"; row "r3"]) as H2 by by_eval.
  pose proof (resync_opens_current_rows_only [row "r2"; row "r3"] {["r1"]} (inl "r1"))
    as (Hin & Hout & _).
  split; [exact H1|]. split; [exact (Hin _ H1)|]. split; [exact H2 | exact (Hout _ H2)].
Defined.

(** ** Which layouts the header strip can reach *)

Lemma collapsedIds_NoDup headers (prev : gset string) :
  NoDup (headerIds headers) → NoDup (Strict.collapsedIds headers prev).
Proof.
  intros Hnd. eapply sublist_NoDup; [exact Hnd|].
  unfold Strict.collapsedIds, headerIds.
  apply (fmap_sublist HeaderCell.id), sublist_filter.
Qed.

Lemma permissive_expand_all (l : list string) (s : gset string) :
  NoDup l → (∀ x, x ∈ l → x ∉ s) →
  toggleSeq Permissive.toggle l s = s ∪ list_to_set l.
Proof.
  revert s. induction l as [|a l IH]; intros s Hnd Hl.
  - cbn. set_solver.
  - apply NoDup_cons in Hnd as [Ha Hnd].
    unfold toggleSeq in *. cbn [foldl].
    rewrite permissive_toggle_collapsed by (apply Hl; left).
    rewrite IH; [set_solver | done |].
    intros x Hx [Hs | ->%elem_of_singleton]%elem_of_union; [|done].
    by apply (Hl x); [right|].
Qed.

Lemma permissive_collapse_all (l : list string) (s : gset string) :
  NoDup l → (∀ x, x ∈ l → x ∈ s) → 2 + length l ≤ size s →
  toggleSeq Permissive.toggle l s = s ∖ list_to_set l.
Proof.
  revert s. induction l as [|a l IH]; intros s Hnd Hl Hsz.
  - cbn. set_solver.
  - apply NoDup_cons in Hnd as [Ha Hnd]. cbn [length] in Hsz.
    unfold toggleSeq in *. cbn [foldl].
    rewrite permissive_toggle_expanded_above_floor;
      [|apply Hl; left | unfold MIN_EXPANDED; lia].
    rewrite IH; [set_solver | done | |].
    + intros x Hx. apply elem_of_difference. split; [apply Hl; by right|].
      intros ->%elem_of_singleton. done.
    + rewrite size_remove_elem by (apply Hl; left). lia.
Qed.

(** X15: Under the floor rule the layouts that clicks on the header strip can
    produce are exactly the sets of at least two header ids: every such set
    is reached by some sequence of clicks, and nothing else is. *)
Theorem permissive_reachable_layouts
    (headers : list HeaderCell.t) (target : gset string) :
  NoDup (headerIds headers) → 2 ≤ length headers →
  ((∃ ids, Forall (λ id, id ∈ headerIds headers) ids
           ∧ toggleSeq Permissive.toggle ids (initialExpandedSet headers) = target)
   ↔ target ⊆ headerIdSet headers ∧ 2 ≤ size target).
Proof.
  intros Hnd Hlen. split.
  - intros (ids & Hids & <-).
    apply (toggleSeq_header_clicks_invariant headers ids Hnd Hlen Hids).
  - intros [Hsub Hsz].
    pose proof (initialExpandedSet_subseteq headers) as Hinit.
    exists (Strict.collapsedIds headers (initialExpandedSet headers)
            ++ elements (headerIdSet headers ∖ target))%list.
    split.
    + apply Forall_app. split; apply Forall_forall; intros x Hx.
      * by apply elem_of_collapsedIds in Hx as [Hx _].
      * apply elem_of_elements, elem_of_difference in Hx as [Hx _].
        by apply elem_of_headerIdSet.
    + unfold toggleSeq. rewrite foldl_app.
      fold (toggleSeq Permissive.toggle
              (Strict.collapsedIds headers (initialExpandedSet headers))
              (initialExpandedSet headers)).
      rewrite permissive_expand_all;
        [|by apply collapsedIds_NoDup
         |by intros x [_ Hx]%elem_of_collapsedIds].
      assert (initialExpandedSet headers
              ∪ list_to_set (Strict.collapsedIds headers (initialExpandedSet headers))
              = headerIdSet headers) as ->.
      { apply set_eq. intros x.
        rewrite elem_of_union, elem_of_list_to_set, elem_of_collapsedIds,
          <- elem_of_headerIdSet.
        destruct (decide (x ∈ initialExpandedSet headers)) as [Hx|Hx];
          [|tauto].
        specialize (Hinit x Hx). tauto. }
      fold (toggleSeq Permissive.toggle (elements (headerIdSet headers ∖ target))
              (headerIdSet headers)).
      rewrite permissive_collapse_all.
      * rewrite list_to_set_elements_L. apply set_eq. intros x.
        rewrite !elem_of_difference.
        destruct (decide (x ∈ target)) as [Hx|Hx]; [|tauto].
        specialize (Hsub x Hx). tauto.
      * apply NoDup_elements.
      * intros x Hx. by apply elem_of_elements, elem_of_difference in Hx as [Hx _].
      * change (length (elements ?X)) with (size X).
        rewrite size_difference by done.
        pose proof (subseteq_size _ _ Hsub). lia.
Qed.

Lemma permissive_reachable_layouts_witness :
  NoDup (headerIds [hA; hB; hC; hD])
  ∧ 2 ≤ length [hA; hB; hC; hD]
  ∧ ∃ ids, Forall (λ id, id ∈ headerIds [hA; hB; hC; hD]) ids
           ∧ toggleSeq Permissive.toggle ids (initialExpandedSet [hA; hB; hC; hD])
             = {["B"; "D"]}.
Proof.
  assert (NoDup (headerIds [hA; hB; hC; hD])) as H1 by by_eval.
  assert (2 ≤ length [hA; hB; hC; hD]) as H2 by (cbn; lia).
  split; [exact H1|]. split; [exact H2|].
  apply (proj2 (permissive_reachable_layouts [hA; hB; hC; hD] {["B"; "D"]} H1 H2)).
  split; by_eval.
Defined.

(** X16: Under the swap rule with three headers of distinct ids the reachable
    layouts are exactly the sets of at least two header ids: all three
    expanded, or any single column collapsed. *)
Theorem strict_three_headers_reachable_layouts
    (headers : list HeaderCell.t) (target : gset string) :
  NoDup (headerIds headers) → length headers = 3 →
  (Strict.reachable headers target
   ↔ target ⊆ headerIdSet headers ∧ 2 ≤ size target).
Proof.
  intros Hnd Hlen. split.
  - apply strict_reachable_invariant; [done | lia].
  - intros [Hsub Hsz].
    destruct (initialExpandedSet_large headers Hnd ltac:(lia))
      as (init & lastHeader & Hheaders & _ & Hcoll).
    pose proof (initialExpandedSet_subseteq headers) as Hinit.
    pose proof (initialExpandedSet_size headers Hnd ltac:(lia)) as Hinitsz.
    assert (size (headerIdSet headers) = 3) as HszH.
    { unfold headerIdSet. rewrite size_list_to_set by done.
      unfold headerIds. by rewrite length_map. }
    assert (lastHeader ∈ headers) as Hlast.
    { rewrite Hheaders. apply elem_of_app. right. left. }
    assert (∀ x, x ∈ headerIdSet headers
                 ↔ x ∈ initialExpandedSet headers ∨ x = HeaderCell.id lastHeader)
      as HH.
    { intros x. split.
      - intros Hx. destruct (decide (x ∈ initialExpandedSet headers)); [by left|].
        right. apply list_elem_of_singleton. rewrite <- Hcoll.
        apply elem_of_collapsedIds. by rewrite <- elem_of_headerIdSet.
      - intros [Hx | ->]; [by apply Hinit|].
        apply elem_of_headerIdSet. unfold headerIds. apply list_elem_of_fmap. eauto. }
    assert (HeaderCell.id lastHeader ∉ initialExpandedSet headers) as Hlastout.
    { apply (elem_of_collapsedIds headers _ (HeaderCell.id lastHeader)).
      rewrite Hcoll. left. }
    assert (size (initialExpandedSet headers) = 2) as Hinit2.
    { pose proof (collapsedIds_length headers _ Hnd Hinit) as Hl.
      rewrite Hcoll, Hlen in Hl. cbn in Hl. lia. }
    pose proof (subseteq_size _ _ Hsub) as Hle. rewrite HszH in Hle.
    destruct (decide (size target = 3)) as [H3|H3].
    + assert (target = headerIdSet headers) as ->
        by (apply set_subseteq_size_eq; [done | lia]).
      assert (headerIdSet headers
              = Strict.toggle headers (HeaderCell.id lastHeader)
                  (initialExpandedSet headers)) as ->.
      { rewrite strict_toggle_collapsed by done.
        apply set_eq. intros x. rewrite HH. set_solver. }
      apply Strict.reachable_click; [apply Strict.reachable_init | done].
    + assert (size (headerIdSet headers ∖ target) = 1) as Hd
        by (rewrite size_difference by done; lia).
      apply size_1_elem_of in Hd as [x Hx]. apply leibniz_equiv in Hx.
      assert (x ∈ headerIdSet headers ∧ x ∉ target) as [HxH Hxt].
      { apply elem_of_difference. rewrite Hx. by apply elem_of_singleton. }
      assert (target = headerIdSet headers ∖ {[x]}) as Htarget.
      { apply set_eq. intros y. rewrite elem_of_difference, elem_of_singleton. split.
        - intros Hy. split; [by apply Hsub | by intros ->].
        - intros [HyH Hyx]. destruct (decide (y ∈ target)) as [|Hyt]; [done|].
          exfalso. apply Hyx.
          apply (elem_of_singleton (C:=gset string)). rewrite <- Hx.
          by apply elem_of_difference. }
      destruct (decide (x = HeaderCell.id lastHeader)) as [->|Hxl].
      * assert (target = initialExpandedSet headers) as ->.
        { rewrite Htarget. apply set_eq. intros y.
          rewrite elem_of_difference, elem_of_singleton, HH.
          split; [tauto|]. intros Hy. split; [by left | by intros ->]. }
        apply Strict.reachable_init.
      * assert (x ∈ initialExpandedSet headers) as Hxi
          by (apply HH in HxH as [|]; done).
        assert (∃ header, header ∈ headers ∧ HeaderCell.id header = x)
          as (header & Hhin & <-).
        { apply elem_of_headerIdSet in HxH. unfold headerIds in HxH.
          apply list_elem_of_fmap in HxH as (header & -> & Hh). eauto. }
        assert (target = Strict.toggle headers (HeaderCell.id header)
                           (initialExpandedSet headers)) as ->.
        { rewrite (strict_toggle_swap headers _ _ (HeaderCell.id lastHeader))
            by done.
          rewrite Htarget. apply set_eq. intros y.
          rewrite !elem_of_difference, elem_of_union, !elem_of_singleton, HH.
          tauto. }
        by apply Strict.reachable_click; [apply Strict.reachable_init|].
Qed.

Lemma strict_three_headers_reachable_layouts_witness :
  NoDup (headerIds [hA; hB; hC])
  ∧ length [hA; hB; hC] = 3
  ∧ Strict.reachable [hA; hB; hC] {["B"; "C"]}.
Proof.
  assert (NoDup (headerIds [hA; hB; hC])) as H1 by by_eval.
  assert (length [hA; hB; hC] = 3) as H2 by reflexivity.
  split; [exact H1|]. split; [exact H2|].
  apply (proj2 (strict_three_headers_reachable_layouts [hA; hB; hC] {["B"; "C"]}
                  H1 H2)).
  split; by_eval.
Defined.
